(** * GRIB definition tables ([site/griberies/__init__.py])

    A shallow embedding of the definition-file parser [read_gribdef] and of
    the concept table store [GribDef], with the properties of their
    specification.

    Modelling conventions
    - text is ASCII: a Python [str] is a [string] of 8-bit characters, and
      the classes [\w], [\d], [\s] and [str.strip] are the ASCII ones
      (Python 3 semantics on code points below 128);
    - a [dict] whose objects are never shared is a [gmap] (dict equality does
      not depend on insertion order); the records handed out by the store can
      be shared, so they live in a heap and are handled by reference;
    - an exception is a value of [exn]; stateful methods run in a state and
      exception monad in which the state survives a raise, as in Python. *)

From Stdlib Require Import ZArith Ascii String SpecFloat.
From stdpp Require Import base option list gmap strings fin_maps.

Local Open Scope Z_scope.

(* ===================================================================== *)
(** * Python values, exceptions and built-ins *)
(* ===================================================================== *)

Module Py.

(** The exceptions that the modelled code can raise. *)
Inductive exn : Set :=
| KeyError | ValueError | SyntaxError | AttributeError
| IOError | IndexError | TypeError | SystemError.

Global Instance exn_eq_dec : EqDecision exn.
Proof. solve_decision. Defined.

Inductive result (A : Type) : Type :=
| Ok (a : A)
| Raise (e : exn).
Arguments Ok {A} a.
Arguments Raise {A} e.

Definition rbind {A B} (m : result A) (k : A → result B) : result B :=
  match m with
  | Ok a => k a
  | Raise e => Raise e
  end.

(** ** Characters and strings *)

Definition nl : ascii := "010"%char.
Definition dquote : ascii := "034"%char.
Definition squote : ascii := "'"%char.

Definition code (c : ascii) : N := N_of_ascii c.
Definition between (lo hi : N) (c : ascii) : bool :=
  ((lo <=? code c) && (code c <=? hi))%N.

(** [str.isspace] on ASCII: TAB..CR, FS..US and the space. *)
Definition is_space (c : ascii) : bool :=
  between 9 13 c || between 28 31 c || (code c =? 32)%N.
Definition is_digit (c : ascii) : bool := between 48 57 c.
Definition is_alpha (c : ascii) : bool := between 65 90 c || between 97 122 c.
(** [\w] *)
Definition is_word (c : ascii) : bool :=
  is_alpha c || is_digit c || Ascii.eqb c "_".

Fixpoint lstrip (p : ascii → bool) (s : string) : string :=
  match s with
  | EmptyString => EmptyString
  | String c s' => if p c then lstrip p s' else s
  end.

Fixpoint rstrip (p : ascii → bool) (s : string) : string :=
  match s with
  | EmptyString => EmptyString
  | String c s' =>
      match rstrip p s' with
      | EmptyString => if p c then EmptyString else String c EmptyString
      | r => String c r
      end
  end.

(** [s.strip()] is [strip is_space s]; [s.strip(chars)] takes the
    membership test of [chars]. *)
Definition strip (p : ascii → bool) (s : string) : string :=
  rstrip p (lstrip p s).

(** [s.split(sep)] for a one-character separator. *)
Fixpoint split (sep : ascii) (s : string) : list string :=
  match s with
  | EmptyString => [EmptyString]
  | String c s' =>
      if Ascii.eqb c sep then EmptyString :: split sep s'
      else match split sep s' with
           | x :: xs => String c x :: xs
           | [] => [String c EmptyString]
           end
  end.

(** [f.readlines()] on the decoded text of a file (newlines already
    translated): the lines, each with its terminator. *)
Fixpoint readlines (s : string) : list string :=
  match s with
  | EmptyString => []
  | String c s' =>
      if Ascii.eqb c nl then String c EmptyString :: readlines s'
      else match readlines s' with
           | x :: xs => String c x :: xs
           | [] => [String c EmptyString]
           end
  end.

(** [s.replace(old, new)] for a non-empty [old]: leftmost occurrences,
    not overlapping. [skip] counts the characters of a replaced occurrence
    that are still to be dropped. *)
Fixpoint replace_go (old new : string) (skip : nat) (s : string) : string :=
  match s with
  | EmptyString => EmptyString
  | String c s' =>
      match skip with
      | S k => replace_go old new k s'
      | O =>
          if String.prefix old s
          then new +:+ replace_go old new (String.length old - 1) s'
          else String c (replace_go old new 0 s')
      end
  end.
Definition replace (old new s : string) : string := replace_go old new 0 s.

Definition startswith (s p : string) : bool := String.prefix p s.

(** [sub in s] *)
Fixpoint contains (sub s : string) : bool :=
  String.prefix sub s ||
  match s with
  | EmptyString => false
  | String _ s' => contains sub s'
  end.

(** [s[1:]] *)
Definition tail (s : string) : string :=
  match s with
  | EmptyString => EmptyString
  | String _ s' => s'
  end.

(** [os.path.basename] (POSIX): what follows the last slash. *)
Definition basename (p : string) : string :=
  List.last (split "/" p) EmptyString.

(** ** Numbers *)

Definition digit_val (c : ascii) : option Z :=
  if is_digit c then Some (Z.of_N (code c) - 48) else None.

(** Value and number of the digits of [s], when [s] holds digits only. *)
Fixpoint digits_go (acc : Z) (n : Z) (s : string) : option (Z * Z) :=
  match s with
  | EmptyString => Some (acc, n)
  | String c s' =>
      match digit_val c with
      | Some d => digits_go (10 * acc + d) (n + 1) s'
      | None => None
      end
  end.
Definition digits (s : string) : option (Z * Z) := digits_go 0 0 s.

(** The longest prefix of [s] satisfying [p], and the rest. *)
Fixpoint span_while (p : ascii → bool) (s : string) : string * string :=
  match s with
  | EmptyString => (EmptyString, EmptyString)
  | String c s' =>
      if p c then let '(a, b) := span_while p s' in (String c a, b)
      else (EmptyString, s)
  end.

(** An optional sign: [true] for a minus. *)
Definition take_sign (s : string) : bool * string :=
  match s with
  | String "+" s' => (false, s')
  | String "-" s' => (true, s')
  | _ => (false, s)
  end.

(** [int(s)] on a string of signs and digits: optional sign, then at least
    one digit; anything else is a ValueError. (Python also accepts
    surrounding blanks and underscores, which the [int] group of the
    attribute pattern cannot capture.) *)
Definition py_int (s : string) : result Z :=
  let '(neg, body) := take_sign s in
  match digits body with
  | Some (v, n) =>
      if 0 <? n then Ok (if neg then - v else v) else Raise ValueError
  | None => Raise ValueError
  end.

(** Binary64. *)
Definition prec : Z := 53.
Definition emax : Z := 1024.

(** The double nearest to [(-1)^neg * m * 10^e] (ties to even), for
    [0 <= m]: what a correctly rounded decimal conversion returns. *)
Definition float_of_decimal (neg : bool) (m e : Z) : spec_float :=
  if m =? 0 then S754_zero neg
  else if 0 <=? e
  then binary_normalize prec emax (cond_Zopp neg (m * 10 ^ e)) 0 neg
  else
    let '(q, e', l) := SFdiv_core_binary prec emax m 0 (10 ^ (- e)) 0 in
    binary_round_aux prec emax neg q e' l.

(** The exponent part of a decimal literal: empty, or [e]/[E], an optional
    sign and at least one digit. *)
Definition exponent (s : string) : option Z :=
  match s with
  | EmptyString => Some 0
  | String c s' =>
      if Ascii.eqb c "e" || Ascii.eqb c "E" then
        let '(neg, body) := take_sign s' in
        match digits body with
        | Some (v, n) =>
            if 0 <? n then Some (if neg then - v else v) else None
        | None => None
        end
      else None
  end.

(** [float(s)] on a string over signs, digits, the point and [e]/[E]:
    optional sign, digits with an optional point (at least one digit in
    all), optional exponent; anything else is a ValueError. (Python also
    accepts blanks, underscores, [inf] and [nan], which the [real] group of
    the attribute pattern cannot capture.) *)
Definition py_float (s : string) : result spec_float :=
  let '(neg, s1) := take_sign s in
  let '(ip, s2) := span_while is_digit s1 in
  let '(fp, s3) :=
    match s2 with
    | String "." r => span_while is_digit r
    | _ => (EmptyString, s2)
    end in
  match digits (ip +:+ fp), digits fp, exponent s3 with
  | Some (m, n), Some (_, nf), Some ex =>
      if 0 <? n then Ok (float_of_decimal neg m (ex - nf))
      else Raise ValueError
  | _, _, _ => Raise ValueError
  end.

(** The values held by a field record or an identifier set. *)
Inductive value : Type :=
| VInt (z : Z)
| VFloat (x : spec_float)
| VStr (s : string).

(** [z == x] for an int and a float compares the exact values. *)
Definition Z_eq_float (z : Z) (x : spec_float) : bool :=
  match x with
  | S754_zero _ => z =? 0
  | S754_finite s m e =>
      let v := cond_Zopp s (Zpos m) in
      if 0 <=? e then z =? v * 2 ^ e else z * 2 ^ (- e) =? v
  | _ => false
  end.

(** [a == b] *)
Definition py_eq (a b : value) : bool :=
  match a, b with
  | VInt x, VInt y => x =? y
  | VFloat x, VFloat y => SFeqb x y
  | VInt x, VFloat y => Z_eq_float x y
  | VFloat x, VInt y => Z_eq_float y x
  | VStr x, VStr y => String.eqb x y
  | _, _ => false
  end.

(** [a != b] *)
Definition py_ne (a b : value) : bool := negb (py_eq a b).

(** A dict key: a string, or [None]. *)
Abbreviation key := (option string).

(** [bool(x)] for an optional string: [None] and [''] are false. *)
Definition truthy (x : option string) : bool :=
  match x with
  | Some (String _ _) => true
  | _ => false
  end.

End Py.

Export Py.

Global Instance result_ret : MRet result := @Ok.
Global Instance result_bind : MBind result := λ A B k m, rbind m k.

(* ===================================================================== *)
(** * Regular expressions, as [re.match] runs them *)
(* ===================================================================== *)

Module Re.

(** The constructs used by the patterns of [read_gribdef]. *)
Inductive regex : Type :=
| Eps
| Chr (c : ascii)
| Cls (p : ascii → bool)
| Seq (r1 r2 : regex)
| Alt (r1 r2 : regex)
| Star (r : regex)
| Group (name : string) (r : regex).

Definition Plus (r : regex) : regex := Seq r (Star r).
Definition Opt (r : regex) : regex := Alt r Eps.

(** The named groups set by a match. *)
Abbreviation groups := (gmap string string).

(** What [s] lost to become its suffix [s']. *)
Definition consumed (s s' : string) : string :=
  String.substring 0 (String.length s - String.length s') s.

(** Backtracking matcher with a continuation: alternatives are tried from
    the left and repetition is greedy, as in Python. An iteration of a
    [Star] has to consume a character (the patterns below repeat character
    classes only); the counter of the inner loop starts at the length of the
    input, so it never cuts a repetition short. *)
Fixpoint run (r : regex) (s : string) (g : groups)
    (k : string → groups → option groups) {struct r} : option groups :=
  match r with
  | Eps => k s g
  | Chr c =>
      match s with
      | String a s' => if Ascii.eqb a c then k s' g else None
      | EmptyString => None
      end
  | Cls p =>
      match s with
      | String a s' => if p a then k s' g else None
      | EmptyString => None
      end
  | Seq r1 r2 => run r1 s g (λ s' g', run r2 s' g' k)
  | Alt r1 r2 =>
      match run r1 s g k with
      | Some m => Some m
      | None => run r2 s g k
      end
  | Star r1 =>
      (fix loop (n : nat) (s : string) (g : groups) {struct n} : option groups :=
         match n with
         | O => k s g
         | S n' =>
             match run r1 s g (λ s' g',
                     if (String.length s' <? String.length s)%nat
                     then loop n' s' g' else None) with
             | Some m => Some m
             | None => k s g
             end
         end) (String.length s) s g
  | Group name r1 =>
      run r1 s g (λ s' g', k s' (<[name := consumed s s']> g'))
  end.

(** [re.match]: anchored at the start of the line, free at its end. *)
Definition rmatch (r : regex) (line : string) : option groups :=
  run r line ∅ (λ _ g, Some g).

(** [m.group(name)]: [None] for a group that took no part in the match. *)
Definition group (m : groups) (name : string) : option string := m !! name.

(** The names of the groups of a pattern, and the least number of
    characters that a match of it consumes. *)
Fixpoint group_names (r : regex) : list string :=
  match r with
  | Eps | Chr _ | Cls _ => []
  | Seq r1 r2 | Alt r1 r2 => group_names r1 ++ group_names r2
  | Star r1 => group_names r1
  | Group name r1 => name :: group_names r1
  end.

Fixpoint min_length (r : regex) : nat :=
  match r with
  | Eps => 0
  | Chr _ | Cls _ => 1
  | Seq r1 r2 => min_length r1 + min_length r2
  | Alt r1 r2 => min_length r1 `min` min_length r2
  | Star _ => 0
  | Group _ r1 => min_length r1
  end.

(** The loop that [run] makes for a [Star], under a name. *)
Definition star_loop (r1 : regex) (k : string → groups → option groups)
    : nat → string → groups → option groups :=
  fix loop (n : nat) (s : string) (g : groups) {struct n} : option groups :=
    match n with
    | O => k s g
    | S n' =>
        match run r1 s g (λ s' g',
                if (String.length s' <? String.length s)%nat
                then loop n' s' g' else None) with
        | Some m => Some m
        | None => k s g
        end
    end.

(** Every character of [s] is in the class [p]. *)
Fixpoint all_chars (p : ascii → bool) (s : string) : bool :=
  match s with
  | EmptyString => true
  | String a s' => p a && all_chars p s'
  end.

(** [s] does not start with a character of the class [p]. *)
Definition stops (p : ascii → bool) (s : string) : bool :=
  match s with
  | EmptyString => true
  | String a _ => negb (p a)
  end.

End Re.

Import Re.

(* ===================================================================== *)
(** * The definition file parser *)
(* ===================================================================== *)

Module Parser.

Abbreviation record := (gmap key value).

Definition quote : regex := Alt (Chr dquote) (Chr squote).
Definition ws : regex := Star (Cls is_space).
Definition minus : regex := Opt (Chr "-").
Definition digit : regex := Cls is_digit.

(** [[\w\.\-\_ ]] *)
Definition is_name_char (c : ascii) : bool :=
  is_word c || Ascii.eqb c "." || Ascii.eqb c "-" || Ascii.eqb c "_"
  || Ascii.eqb c " ".

(** [("|')(?P<name>[\w\.\-\_ ]+)("|')\s*=] *)
Definition re_name : regex :=
  Seq quote (Seq (Group "name" (Plus (Cls is_name_char)))
    (Seq quote (Seq ws (Chr "=")))).

(** [\+|-?\d+] *)
Definition re_int : regex := Alt (Chr "+") (Seq minus (Plus digit)).

(** [\+|-?\d*\.\d*e\+|-?\d*] *)
Definition re_real : regex :=
  Alt (Chr "+")
    (Alt (Seq minus (Seq (Star digit) (Seq (Chr ".") (Seq (Star digit)
            (Seq (Chr "e") (Chr "+"))))))
         (Seq minus (Star digit))).

Definition re_int_g : regex := Group "int" re_int.
Definition re_real_g : regex := Group "real" re_real.

(** [(?P<key>\w+)\s*=\s*(?P<int>...)|(?P<real>...)\s*;]: the bar of
    [re_num_g] sits at the top level of the pattern, so the alternatives
    are "key, equal sign, integer" and "real, semicolon". *)
Definition re_keyvalue : regex :=
  Alt (Seq (Group "key" (Plus (Cls is_word))) (Seq ws (Seq (Chr "=")
         (Seq ws re_int_g))))
      (Seq re_real_g (Seq ws (Chr ";"))).

Definition nls : string := String nl EmptyString.

(** The lines of the file, one statement or block opening per line. *)
Definition unfold_lines (text : string) : list string :=
  let lines_unfold := strip is_space <$> readlines text in
  lines_unfold ≫= λ line,
    let line := replace "{ " ("{" +:+ nls) (replace ";" (";" +:+ nls) line) in
    strip is_space <$> split nl line.

(** The body of the first loop, on the line [line] of index [i]. *)
Definition find_step (acc : list (string * nat) * gmap string record)
    (il : nat * string) : list (string * nat) * gmap string record :=
  let '(indexes, dico) := acc in
  let '(i, line) := il in
  match rmatch re_name line with
  | Some fmatch =>
      match group fmatch "name" with
      | Some field => (indexes ++ [(field, i)], <[field := ∅]> dico)
      | None => (indexes, dico)
      end
  | None => (indexes, dico)
  end.

(** First loop: the field declarations, and an empty record for each. *)
Definition find_fields (lines : list string)
    : list (string * nat) * gmap string record :=
  foldl find_step ([], ∅) (imap pair lines).

Definition comment_key : key := Some "#comment".

(** The comment line just above a declaration. *)
Definition set_comment (lines : list string) (istart : nat) (r : record)
    : record :=
  match lines !! (istart - 1)%nat with
  | Some prev =>
      if (0 <? istart)%nat && startswith prev "#"
      then <[comment_key :=
               VStr (strip (Ascii.eqb dquote) (strip is_space (tail prev)))]> r
      else r
  | None => r
  end.

(** The attribute lines [ls] of a span, written into the record [r]. *)
Fixpoint fill_attrs (ls : list string) (r : record) : result record :=
  match ls with
  | [] => Ok r
  | line :: rest =>
      match rmatch re_keyvalue line with
      | Some kvmatch =>
          if truthy (group kvmatch "int") then
            z ← py_int (default EmptyString (group kvmatch "int"));
            fill_attrs rest (<[group kvmatch "key" := VInt z]> r)
          else if truthy (group kvmatch "real") then
            x ← py_float (default EmptyString (group kvmatch "real"));
            fill_attrs rest (<[group kvmatch "key" := VFloat x]> r)
          else fill_attrs rest r
      | None => fill_attrs rest r
      end
  end.

(** [lines[istart:iend]] *)
Definition slice (lines : list string) (istart iend : nat) : list string :=
  take (iend - istart) (drop istart lines).

(** The body of the loop on fields, on the record [dico[field]]. *)
Definition fill_span (lines : list string) (istart iend : nat) (r : record)
    : result record :=
  fill_attrs (slice lines istart iend) (set_comment lines istart r).

(** Where the span of a declaration ends: at the next declaration, or at
    the end of the file for the last one. *)
Definition span_end (lines : list string) (rest : list (string * nat)) : nat :=
  match rest with
  | [] => length lines
  | (_, inext) :: _ => inext
  end.

(** Second loop. *)
Fixpoint fill_fields (lines : list string) (indexes : list (string * nat))
    (dico : gmap string record) : result (gmap string record) :=
  match indexes with
  | [] => Ok dico
  | (field, istart) :: rest =>
      match dico !! field with
      | Some r =>
          r' ← fill_span lines istart (span_end lines rest) r;
          fill_fields lines rest (<[field := r']> dico)
      | None => Raise KeyError
      end
  end.

Definition parse_lines (lines : list string) : result (gmap string record) :=
  let '(indexes, dico) := find_fields lines in
  fill_fields lines indexes dico.

(** [read_gribdef] on the text of the file. *)
Definition parse (text : string) : result (gmap string record) :=
  parse_lines (unfold_lines text).

(** ** The spans of a file, for stating what the second loop builds *)

(** The span of each declaration: its name, first line and end. *)
Fixpoint spans (lines : list string) (indexes : list (string * nat))
    : list (string * nat * nat) :=
  match indexes with
  | [] => []
  | (field, istart) :: rest =>
      (field, istart, span_end lines rest) :: spans lines rest
  end.

(** The numeric conversions of a span succeed. *)
Definition span_ok (lines : list string) (istart iend : nat) : bool :=
  match fill_span lines istart iend ∅ with
  | Ok _ => true
  | Raise _ => false
  end.

(** The record that a span builds on its own, from an empty record. *)
Definition span_record (lines : list string) (istart iend : nat) : record :=
  match fill_span lines istart iend ∅ with
  | Ok r => r
  | Raise _ => ∅
  end.

(** Every item of the record under a string key is an integer, the
    comment apart. *)
Definition keyed_ints (r : record) : Prop :=
  ∀ k v, r !! Some k = Some v →
         (∃ z, v = VInt z) ∨ (k = "#comment" ∧ ∃ s, v = VStr s).

Definition spans_ok (lines : list string) (indexes : list (string * nat))
    : bool :=
  forallb (λ '(_, i, j), span_ok lines i j) (spans lines indexes).

(** The spans of the name [f] laid over [r], in file order: a later span
    over what the earlier ones built. *)
Definition overlay (lines : list string) (indexes : list (string * nat))
    (f : string) (r : record) : record :=
  foldl (λ acc '(g, i, j),
           if decide (g = f) then span_record lines i j ∪ acc else acc)
        r (spans lines indexes).

(** The comment that the line above line [istart] gives, if it is one. *)
Definition comment_above (lines : list string) (istart : nat) : option value :=
  match istart with
  | O => None
  | S n =>
      match lines !! n with
      | Some prev =>
          if startswith prev "#"
          then Some (VStr (strip (Ascii.eqb dquote)
                             (strip is_space (tail prev))))
          else None
      | None => None
      end
  end.

(** The comment of the last commented declaration of [f], [acc] when it has
    none. *)
Definition last_comment (lines : list string) (indexes : list (string * nat))
    (f : string) (acc : option value) : option value :=
  foldl (λ acc '(g, i),
           if decide (g = f)
           then from_option Some acc (comment_above lines i) else acc)
        acc indexes.

End Parser.

Import Parser.

(* ===================================================================== *)
(** * The concept table store *)
(* ===================================================================== *)

Module Store.

(** A reference to a record object. *)
Abbreviation loc := positive.

(** A concept table: the record object of each field. *)
Abbreviation table := (gmap string loc).

(** The attributes of a [GribDef] object. [initialized] is [None] as long
    as nothing has assigned the attribute. *)
Record GribDef : Type := mkGribDef {
  _concepts : gset string;
  tables : gmap string (gmap string table);
  initialized : option bool
}.

(** The files on disk, the record objects, the store, and a ghost counter
    of the calls of [_actual_init]. *)
Record world : Type := mkWorld {
  files : gmap string string;
  heap : gmap loc record;
  self : GribDef;
  init_runs : nat
}.

Definition set_heap (h : gmap loc record) (w : world) : world :=
  mkWorld (files w) h (self w) (init_runs w).
Definition set_self (s : GribDef) (w : world) : world :=
  mkWorld (files w) (heap w) s (init_runs w).
Definition set_init_runs (n : nat) (w : world) : world :=
  mkWorld (files w) (heap w) (self w) n.

(** Computations that read and write the world and may raise. *)
Definition M (A : Type) : Type := world → result A * world.

Definition ret {A} (a : A) : M A := λ w, (Ok a, w).
Definition bind {A B} (m : M A) (k : A → M B) : M B := λ w,
  match m w with
  | (Ok a, w') => k a w'
  | (Raise e, w') => (Raise e, w')
  end.
Definition raise {A} (e : exn) : M A := λ w, (Raise e, w).
Definition lift {A} (r : result A) : M A := λ w, (r, w).
Definition get_self : M GribDef := λ w, (Ok (self w), w).
Definition put_self (s : GribDef) : M unit := λ w, (Ok tt, set_self s w).

Global Instance M_ret : MRet M := @ret.
Global Instance M_bind : MBind M := λ A B k m, bind m k.

(** [d[k]] on a dict. *)
Definition index {K} `{Countable K} {V} (d : gmap K V) (k : K) : M V :=
  match d !! k with
  | Some v => ret v
  | None => raise KeyError
  end.

(** A new object holding [r]. *)
Definition alloc (r : record) : M loc := λ w,
  let l := fresh (dom (heap w)) in (Ok l, set_heap (<[l := r]> (heap w)) w).

(** The record behind a reference. References held by a well-formed world
    never dangle; [SystemError] stands for the impossible case. *)
Definition load (l : loc) : M record := λ w,
  match heap w !! l with
  | Some r => (Ok r, w)
  | None => (Raise SystemError, w)
  end.

Definition store (l : loc) (r : record) : M unit := λ w,
  (Ok tt, set_heap (<[l := r]> (heap w)) w).

(** [copy.copy(x)] on a record: a new object with the same items. *)
Definition copy (l : loc) : M loc := r ← load l; alloc r.

(** [x.pop(k)], without a default. *)
Definition pop (l : loc) (k : key) : M unit :=
  r ← load l;
  match r !! k with
  | Some _ => store l (delete k r)
  | None => raise KeyError
  end.

(** A [for] loop over a list, threading the loop state [b]. The loops over
    the items of a dict run over [map_to_list], whose order is not the
    insertion order of Python; what they return or raise does not depend on
    the order. *)
Fixpoint foldM {A B} (f : B → A → M B) (xs : list A) (b : B) : M B :=
  match xs with
  | [] => ret b
  | x :: xs' => b' ← f b x; foldM f xs' b'
  end.

(** [try: body / except e: handler / else: els] *)
Definition try_except_else {A B} (body : M A) (e : exn) (handler : M B)
    (els : A → M B) : M B := λ w,
  match body w with
  | (Ok a, w') => els a w'
  | (Raise e', w') =>
      if decide (e' = e) then handler w' else (Raise e', w')
  end.

(** The file objects: [io.open(filename).readlines()] sees the text. *)
Definition open (filename : string) : M string := λ w,
  match files w !! filename with
  | Some text => (Ok text, w)
  | None => (Raise IOError, w)
  end.

Definition new_record (refs : table) (item : string * record) : M table :=
  let '(f, r) := item in l ← alloc r; mret (<[f := l]> refs).

(** The dict returned by the parser: one new record object per field. *)
Definition new_records (frag : gmap string record) : M table :=
  foldM new_record (map_to_list frag) ∅.

(** [read_gribdef(filename)] *)
Definition read_gribdef (filename : string) : M table :=
  text ← open filename;
  frag ← lift (parse text);
  new_records frag.

(** A lookup argument: a string, or an identifier set. *)
Inductive fid_t : Type :=
| FidStr (s : string)
| FidDict (h : record).

(** What [_lookup] returns: the record of [_get_def], or the dict of
    records of [_lookup_from_kv]. *)
Inductive retrieved : Type :=
| RDef (l : loc)
| RFields (fields : table).

(** The test of [_lookup_from_kv] on one field. *)
Definition matches (handgrip gribfid : record) : bool :=
  bool_decide (dom handgrip ⊆ dom gribfid) &&
  forallb (λ '(k, v),
             match gribfid !! k with
             | Some x => negb (py_ne x v)
             | None => false
             end) (map_to_list handgrip).

(** The body of the loop of [_lookup_from_kv] on the fields of the table:
    a matching field enters [fields] with a copy of its record. *)
Definition select (handgrip : record) (fields : table) (item : string * loc)
    : M table :=
  let '(f, l) := item in
  gribfid ← load l;
  if matches handgrip gribfid
  then l' ← copy l; mret (<[f := l']> fields)
  else mret fields.

(** The body of the loop of [_lookup_from_kv] that drops the comments. *)
Definition strip_comment (_ : unit) (item : string * loc) : M unit :=
  let '(f, fid) := item in pop fid comment_key.

(** The editions looked for in a file name, in this order. *)
Definition editions : list string := ["grib1"; "grib2"].

Definition infer_edition (filename : string) (grib_edition : option string)
    : option string :=
  match grib_edition with
  | None =>
      foldl (λ ge g, if contains g filename then Some g else ge) None editions
  | Some g => Some g
  end.

Definition concept_of (filename : string) : string :=
  replace ".def" "" (basename filename).

Definition set_tables (t : gmap string (gmap string table)) (s : GribDef)
    : GribDef :=
  mkGribDef (_concepts s) t (initialized s).
Definition set_initialized (b : bool) (s : GribDef) : GribDef :=
  mkGribDef (_concepts s) (tables s) (Some b).

(** The object before [__init__] has assigned anything. *)
Definition blank : GribDef := mkGribDef ∅ ∅ None.

Section Methods.

(** [bronx.syntax.parsing.str2dict(_, try_convert=int)], a library
    outside this repository. *)
Variable str2dict : string → result record.

(** The body of [_actual_init]: [pass] in [GribDef], overridden by its
    subclasses. *)
Variable actual_init_body : M unit.

Definition parse_GRIBstr_todict (strfid : string) : result record :=
  str2dict strfid.

(** The counter records the call whatever the body does. *)
Definition _actual_init : M unit := λ w,
  let '(r, w') := actual_init_body w in
  (r, set_init_runs (S (init_runs w)) w').

Definition init_before {A} (mtd : M A) : M A := λ w,
  match initialized (self w) with
  | None => (Raise AttributeError, w)
  | Some false => (_ ← _actual_init; mtd) w
  | Some true => mtd w
  end.

Definition __init__ (actual_init : bool) (concepts : list string) : M unit :=
  let empty := list_to_map ((λ c, (c, ∅)) <$> concepts) in
  _ ← put_self (mkGribDef (list_to_set concepts)
                  {[ "grib1" := empty; "grib2" := empty ]} None);
  if actual_init then _actual_init
  else s ← get_self; put_self (set_initialized false s).

Definition read (filename : string) (grib_edition : option string)
    : M unit :=
  let grib_edition := infer_edition filename grib_edition in
  let concept := concept_of filename in
  s ← get_self;
  '(g, t) ← match grib_edition with
            | Some g => t ← index (tables s) g; mret (g, t)
            | None => raise KeyError
            end;
  frag ← read_gribdef filename;
  let tb :=
    match t !! concept with
    | Some old => frag ∪ old
    | None => frag
    end in
  put_self (set_tables (<[g := <[concept := tb]> t]> (tables s)) s).

(** The function that the decorator wraps to make [_get_def]. *)
Definition get_def_mtd (fid : fid_t) (concept grib_edition : string)
    (include_comments : bool) : M loc :=
  s ← get_self;
  t ← index (tables s) grib_edition;
  tb ← index t concept;
  l ← match fid with
      | FidStr name => index tb name
      | FidDict _ => raise TypeError
      end;
  fid' ← copy l;
  _ ← (if negb include_comments then
         r ← load fid';
         if decide (comment_key ∈ dom r) then pop fid' comment_key
         else mret tt
       else mret tt);
  mret fid'.

Definition _get_def (fid : fid_t) (concept grib_edition : string)
    (include_comments : bool) : M loc :=
  init_before (get_def_mtd fid concept grib_edition include_comments).

(** The function that the decorator wraps to make [_lookup_from_kv]. *)
Definition lookup_from_kv_mtd (handgrip : fid_t)
    (concept grib_edition : string) (include_comments : bool) : M table :=
  handgrip ← match handgrip with
             | FidStr s => lift (parse_GRIBstr_todict s)
             | FidDict h => mret h
             end;
  s ← get_self;
  t ← index (tables s) grib_edition;
  tb ← index t concept;
  fields ← foldM (select handgrip) (map_to_list tb) ∅;
  _ ← (if negb include_comments then
         foldM strip_comment (map_to_list fields) tt
       else mret tt);
  mret fields.

Definition _lookup_from_kv (handgrip : fid_t) (concept grib_edition : string)
    (include_comments : bool) : M table :=
  init_before
    (lookup_from_kv_mtd handgrip concept grib_edition include_comments).

(** The function that the decorator wraps to make [_lookup]. *)
Definition lookup_mtd (fid : fid_t) (concept grib_edition : string)
    (include_comments : bool) : M retrieved :=
  try_except_else
    (match fid with
     | FidStr s => h ← lift (parse_GRIBstr_todict s); mret (FidDict h)
     | FidDict _ => mret fid
     end)
    SyntaxError
    (l ← _get_def fid concept grib_edition include_comments; mret (RDef l))
    (λ fid', fields ← _lookup_from_kv fid' concept grib_edition
                         include_comments;
             mret (RFields fields)).

Definition _lookup (fid : fid_t) (concept grib_edition : string)
    (include_comments : bool) : M retrieved :=
  init_before (lookup_mtd fid concept grib_edition include_comments).

(** A lookup made by a client of the store. *)
Inductive call : Type :=
| Lookup (fid : fid_t) (concept grib_edition : string) (include_comments : bool)
| GetDef (fid : fid_t) (concept grib_edition : string) (include_comments : bool)
| LookupFromKv (fid : fid_t) (concept grib_edition : string)
    (include_comments : bool).

(** The call, with its answer wrapped as [_lookup] wraps it. *)
Definition perform (c : call) : M retrieved :=
  match c with
  | Lookup fid c e ic => _lookup fid c e ic
  | GetDef fid c e ic => l ← _get_def fid c e ic; mret (RDef l)
  | LookupFromKv fid c e ic =>
      fields ← _lookup_from_kv fid c e ic; mret (RFields fields)
  end.

(** The world after a call, whether it returned or raised. *)
Definition after (c : call) (w : world) : world := snd (perform c w).

(** The world after a sequence of calls, the client catching what they
    raise. *)
Definition after_all (cs : list call) (w : world) : world :=
  foldl (λ w c, after c w) w cs.

End Methods.

(** [GribDef._actual_init]: [pass]. *)
Definition pass : M unit := mret tt.

(** The record stored for a field, seen through its reference. *)
Definition stored (w : world) (grib_edition concept field : string)
    : option record :=
  t ← tables (self w) !! grib_edition;
  tb ← t !! concept;
  l ← tb !! field;
  heap w !! l.

(** The records of a result dict, seen through its references. *)
Definition deref (w : world) (fields : table) : gmap string record :=
  omap (λ l, heap w !! l) fields.

(** The table registered for an edition and a concept, if any. *)
Definition table_of (w : world) (grib_edition concept : string)
    : option table :=
  t ← tables (self w) !! grib_edition; t !! concept.

(** What the caller of [_get_def] sees: the items of the record handed
    out, or the exception. *)
Definition seen_record (x : result loc * world) : result (option record) :=
  match x.1 with
  | Ok l => Ok (heap x.2 !! l)
  | Raise e => Raise e
  end.

(** What the caller of [_lookup_from_kv] sees: the fields handed out, each
    with the items of its record, or the exception. *)
Definition seen_fields (x : result table * world)
    : result (gmap string record) :=
  match x.1 with
  | Ok fields => Ok (deref x.2 fields)
  | Raise e => Raise e
  end.

(** The record handed out by a direct lookup for the stored record [r]. *)
Definition handed_out (include_comments : bool) (r : record) : record :=
  if include_comments then r else delete comment_key r.

(** What a client does to a record it holds: any change of its items. *)
Definition mutate (l : loc) (r : record) (w : world) : world :=
  set_heap (<[l := r]> (heap w)) w.

(** [w'] has the files and the store object of [w], and every record
    object of [w] with the items it had. *)
Definition frame (w w' : world) : Prop :=
  files w' = files w ∧ self w' = self w ∧
  ∀ l, l ∈ dom (heap w) → heap w' !! l = heap w !! l.

(** No reference of the store dangles. *)
Definition wf (w : world) : Prop :=
  ∀ e t c tb f l,
    tables (self w) !! e = Some t → t !! c = Some tb → tb !! f = Some l →
    l ∈ dom (heap w).

(** The world in which a decorated method of the base class runs its
    body: [_actual_init] is [pass], and is counted when the flag is
    false. *)
Definition entered (b : bool) (w : world) : world :=
  if b then w else set_init_runs (S (init_runs w)) w.

(** On an initialised store, [m] leaves the store object and the count of
    initialisations as they are. *)
Definition quiet {A} (m : M A) : Prop :=
  ∀ w, initialized (self w) = Some true →
       self (m w).2 = self w ∧ init_runs (m w).2 = init_runs w.

(** The same, as a test that runs on a concrete world. *)
Definition wf_check (w : world) : bool :=
  bool_decide
    (map_Forall (λ _ (t : gmap string table),
       map_Forall (λ _ (tb : table),
         map_Forall (λ _ (l : loc), l ∈ dom (heap w)) tb) t)
       (tables (self w))).

End Store.

Import Store.

(* ===================================================================== *)
(** * The search paths of the GRIB libraries *)
(* ===================================================================== *)

Module Paths.

(** [os.environ]: the value of each variable that is set. *)
Abbreviation environ := (gmap string string).

(** The only exception that these functions raise by themselves: a local
    variable read before any branch has bound it. *)
Inductive unbound : Set := UnboundLocalError.

(** [os.pathsep] and [os.sep] (POSIX). *)
Definition pathsep : ascii := ":"%char.
Definition pathsep_s : string := String pathsep EmptyString.
Definition sep_s : string := "/".

(** [s.endswith("/")] *)
Fixpoint ends_with_sep (s : string) : bool :=
  match s with
  | EmptyString => false
  | String c EmptyString => Ascii.eqb c "/"
  | String _ s' => ends_with_sep s'
  end.

(** One step of [os.path.join] (POSIX): an absolute component restarts the
    path, one after an empty path or a slash is appended as it is, any
    other is appended after a slash. *)
Definition join_step (path b : string) : string :=
  if startswith b sep_s then b
  else if String.eqb path EmptyString || ends_with_sep path then path +:+ b
  else path +:+ sep_s +:+ b.

(** [os.path.join(a, *p)] *)
Definition path_join (a : string) (p : list string) : string :=
  foldl join_step a p.

(** The variables of an API, as the [if]/[elif] of the two setters binds
    them: the samples variable and the definitions variable, or nothing for
    a name that is neither. *)
Definition variables (api_name : string) : option (string * string) :=
  if String.eqb api_name "grib_api"
  then Some ("GRIB_SAMPLES_PATH", "GRIB_DEFINITION_PATH")
  else if String.eqb api_name "eccodes"
  then Some ("ECCODES_SAMPLES_PATH", "ECCODES_DEFINITION_PATH")
  else None.

(** The list [paths] after [if not reset and os.environ.get(var, False):
    paths.append(os.environ.get(var))]. *)
Definition with_predefined (reset : bool) (env : environ) (var : string)
    (paths : list string) : list string :=
  if negb reset && truthy (env !! var)
  then paths ++ [default EmptyString (env !! var)]
  else paths.

(** [complete_grib_paths(rootdir, api_name, reset)] *)
Definition complete_grib_paths (rootdir api_name : string) (reset : bool)
    (env : environ) : (unbound + unit) * environ :=
  let loc_samples := [path_join rootdir ["share"; api_name; "samples"]] in
  let loc_defs := [path_join rootdir ["share"; api_name; "definitions"]] in
  match variables api_name with
  | Some (sp, dp) =>
      let loc_samples := with_predefined reset env sp loc_samples in
      let loc_defs := with_predefined reset env dp loc_defs in
      let env := <[sp := String.concat pathsep_s loc_samples]> env in
      let env := <[dp := String.concat pathsep_s loc_defs]> env in
      (inr tt, env)
  | None => (inl UnboundLocalError, env)
  end.

(** [set_definition_path(path, api_name, reset)] *)
Definition set_definition_path (path api_name : string) (reset : bool)
    (env : environ) : (unbound + unit) * environ :=
  let paths := [path] in
  match variables api_name with
  | Some (_, dp) =>
      let paths := with_predefined reset env dp paths in
      (inr tt, <[dp := String.concat pathsep_s paths]> env)
  | None => (inl UnboundLocalError, env)
  end.

(** [p not in ('', '.')] *)
Definition kept (p : string) : bool :=
  negb (String.eqb p EmptyString || String.eqb p ".").

(** [_get_paths(obj)] *)
Definition _get_paths (obj : string) (env : environ) : list string :=
  let paths :=
    String.concat pathsep_s
      [default EmptyString (env !! ("ECCODES_" +:+ obj +:+ "_PATH"));
       default EmptyString (env !! ("GRIB_" +:+ obj +:+ "_PATH"))] in
  List.filter kept (split pathsep paths).

Definition get_samples_paths (env : environ) : list string :=
  _get_paths "SAMPLES" env.

Definition get_definition_paths (env : environ) : list string :=
  _get_paths "DEFINITION" env.

(** The paths that the getters read in the value of one variable. *)
Definition paths_of (value : string) : list string :=
  List.filter kept (split pathsep value).

(** The value of a variable, as [os.environ.get(var, "")] gives it. *)
Definition value_of (env : environ) (var : string) : string :=
  default EmptyString (env !! var).

(** A directory with a slash after it, unless it is empty or has one. *)
Definition with_slash (rootdir : string) : string :=
  if String.eqb rootdir EmptyString || ends_with_sep rootdir then rootdir
  else rootdir +:+ sep_s.

(** [$rootdir$/share/$api_name$/$leaf$], as the docstring of
    [complete_grib_paths] writes it. *)
Definition install_dir (rootdir api_name leaf : string) : string :=
  with_slash rootdir +:+ "share/" +:+ api_name +:+ sep_s +:+ leaf.

(** [c in s] for a character. *)
Fixpoint has_char (c : ascii) (s : string) : bool :=
  match s with
  | EmptyString => false
  | String a s' => Ascii.eqb a c || has_char c s'
  end.

End Paths.

Import Paths.

(* ===================================================================== *)
(** * Concrete files and stores *)
(* ===================================================================== *)

Module Examples.

Definition dq : string := String dquote EmptyString.

(** Modelled from the spec: [bronx.syntax.parsing.str2dict] is a library
    outside the repository; the spec describes it as a generic
    [key=value,key=value] parser that tries to coerce the values to
    integers and fails with a syntax failure on a string that is not of
    this shape. It is only used to run the methods on concrete inputs. *)
Definition str2dict (s : string) : result record :=
  foldl (λ (acc : result record) item,
           d ← acc;
           match split "=" item with
           | [k; v] =>
               let v := strip is_space v in
               Ok (<[Some (strip is_space k) :=
                       match py_int v with
                       | Ok z => VInt z
                       | Raise _ => VStr v
                       end]> d)
           | _ => Raise SyntaxError
           end)
        (Ok ∅) (split "," s).

(** Modelled from the spec: the library parser again, on the point that the
    spec leaves open. The spec asks a syntax failure of a string that is not
    a key/value string; here that is a string with no separator ([=] or [:])
    at all, and an item without a separator, in a string that has one
    elsewhere, fails as an index out of range, as taking the second part of
    the split item does. *)
Definition str2dict_indexing (s : string) : result record :=
  if negb (contains ":" s) && negb (contains "=" s) then Raise SyntaxError
  else
    foldl (λ (acc : result record) item,
             d ← acc;
             match split ":" (replace "=" ":" item) with
             | k :: v :: _ =>
                 let v := strip is_space v in
                 Ok (<[Some (strip is_space k) :=
                         match py_int v with
                         | Ok z => VInt z
                         | Raise _ => VStr v
                         end]> d)
             | _ => Raise IndexError
             end)
          (Ok ∅) (split "," s).

(** A subclass initialiser that only marks the store as initialised. *)
Definition mark_initialized : M unit := λ w,
  (Ok tt, set_self (set_initialized true (self w)) w).

(** The file of the parsing example. *)
Definition text_foo : string :=
  dq +:+ "foo" +:+ dq +:+ " = { key = 3 ; other = 1.5e+2 ; }".

Definition float_150 : spec_float := S754_finite false 5277655813324800 (-45).

(** A field declared twice. *)
Definition text_twice : string :=
  "'t' = { a = 1 ; b = 2 ; }" +:+ nls +:+ "'t' = { b = 7 ; c = 9 ; }".

(** The table of the reverse lookup example: no field has a comment. *)
Definition text_demo : string :=
  dq +:+ "foo" +:+ dq +:+ " = { key = 3 ; x = 1 ; }" +:+ nls +:+
  dq +:+ "bar" +:+ dq +:+ " = { key = 4 ; }".

(** A table in which only the first field has a comment. *)
Definition text_commented : string :=
  "# air temperature" +:+ nls +:+
  "'t' = { discipline = 0 ; }" +:+ nls +:+
  "'u' = { discipline = 2 ; }".

(** Two files of the concept [demo] for the same edition. *)
Definition text_first : string := "'foo' = { a = 1 ; }".
Definition text_second : string := "'foo' = { b = 2 ; }".

Definition disk : gmap string string :=
  {[ "definitions/grib2/demo.def" := text_demo;
     "definitions/grib2/commented.def" := text_commented;
     "first/grib2/merge.def" := text_first;
     "second/grib2/merge.def" := text_second ]}.

Definition w_blank : world := mkWorld disk ∅ blank 0.

(** [GribDef(actual_init=False)] *)
Definition w_lazy : world := snd (__init__ pass false [] w_blank).

(** [GribDef()], with the initialiser of the base class. *)
Definition w_eager : world := snd (__init__ pass true [] w_blank).

(** [GribDef(concepts=['empty'], actual_init=False)] *)
Definition w_concepts : world := snd (__init__ pass false ["empty"] w_blank).

Definition w_demo : world :=
  snd (read "definitions/grib2/demo.def" None w_lazy).

Definition w_commented : world :=
  snd (read "definitions/grib2/commented.def" None w_lazy).

(** A lazy store next to a file whose path names both editions. *)
Definition w_both : world :=
  snd (__init__ pass false []
         (mkWorld {[ "defs/grib1/or/grib2/demo.def" := text_demo ]} ∅ blank 0)).

Definition w_first : world := snd (read "first/grib2/merge.def" None w_lazy).
Definition w_second : world :=
  snd (read "second/grib2/merge.def" None w_first).

End Examples.

(* ===================================================================== *)
(** * Properties of the parser *)
(* ===================================================================== *)

Section ParserProps.

Implicit Types (lines : list string) (r : record) (f : string).

Lemma rbind_Ok {A B} (m : result A) (k : A → result B) a :
  m = Ok a → rbind m k = k a.
Proof. by intros ->. Qed.

Lemma insert_over_union (k : key) (v : value) r :
  <[k := v]> r = <[k := v]> ∅ ∪ r.
Proof. by rewrite <- insert_union_l, (left_id_L ∅ (∪)). Qed.

(** A span only writes items: on a record [r] it gives what it gives on an
    empty record, laid over [r]. *)
Lemma set_comment_union lines i r :
  set_comment lines i r = set_comment lines i ∅ ∪ r.
Proof.
  unfold set_comment. destruct (lines !! _) as [prev|].
  - destruct (_ && _).
    + apply insert_over_union.
    + by rewrite (left_id_L ∅ (∪)).
  - by rewrite (left_id_L ∅ (∪)).
Qed.

Lemma fill_attrs_union ls r :
  fill_attrs ls r = rbind (fill_attrs ls ∅) (λ r0, Ok (r0 ∪ r)).
Proof.
  revert r. induction ls as [|line rest IH]; intros r; simpl.
  - by rewrite (left_id_L ∅ (∪)).
  - destruct (rmatch re_keyvalue line) as [m|]; [|apply IH].
    destruct (truthy (group m "int")).
    { unfold mbind, result_bind.
      destruct (py_int _) as [z|e]; simpl; [|done].
      rewrite IH, (IH (<[_ := _]> ∅)).
      destruct (fill_attrs rest ∅) as [r0|e]; simpl; [|done].
      by rewrite <- (assoc_L (∪)), <- insert_over_union. }
    destruct (truthy (group m "real")); [|apply IH].
    unfold mbind, result_bind.
    destruct (py_float _) as [x|e]; simpl; [|done].
    rewrite IH, (IH (<[_ := _]> ∅)).
    destruct (fill_attrs rest ∅) as [r0|e]; simpl; [|done].
    by rewrite <- (assoc_L (∪)), <- insert_over_union.
Qed.

Lemma fill_span_union lines i j r :
  fill_span lines i j r = rbind (fill_span lines i j ∅) (λ r0, Ok (r0 ∪ r)).
Proof.
  unfold fill_span.
  rewrite fill_attrs_union, (fill_attrs_union _ (set_comment lines i ∅)).
  rewrite (set_comment_union lines i r).
  destruct (fill_attrs _ ∅) as [r0|e]; simpl; [|done].
  by rewrite (assoc_L (∪)).
Qed.

Lemma fill_span_ok lines i j r :
  span_ok lines i j = true →
  fill_span lines i j r = Ok (span_record lines i j ∪ r).
Proof.
  intros Hok. rewrite fill_span_union.
  unfold span_ok, span_record in *.
  by destruct (fill_span lines i j ∅).
Qed.

(** The first loop leaves an empty record under each declared name. *)
Lemma find_step_dico acc il f :
  (acc.2 !! f = if decide (f ∈ acc.1.*1) then Some ∅ else None) →
  (find_step acc il).2 !! f =
    if decide (f ∈ (find_step acc il).1.*1) then Some ∅ else None.
Proof.
  destruct acc as [idx dico], il as [i line]. simpl. intros Hacc.
  destruct (rmatch re_name line) as [m|]; [|done].
  destruct (group m "name") as [field|]; [|done]. simpl.
  rewrite fmap_app. simpl.
  destruct (decide (field = f)) as [->|Hne].
  - rewrite lookup_insert_eq, decide_True; [done|].
    apply elem_of_app. right. by apply list_elem_of_singleton.
  - rewrite lookup_insert_ne, Hacc by done.
    destruct (decide (f ∈ idx.*1)) as [Hin|Hnin].
    + rewrite decide_True; [done|]. apply elem_of_app. by left.
    + rewrite decide_False; [done|].
      intros [?|Hin%list_elem_of_singleton]%elem_of_app; congruence.
Qed.

Lemma find_fields_dico lines f :
  (find_fields lines).2 !! f =
    if decide (f ∈ (find_fields lines).1.*1) then Some ∅ else None.
Proof.
  unfold find_fields. generalize (imap pair lines). intros l.
  assert (∀ acc,
            (acc.2 !! f = if decide (f ∈ acc.1.*1) then Some ∅ else None) →
            (foldl find_step acc l).2 !! f =
              if decide (f ∈ (foldl find_step acc l).1.*1)
              then Some ∅ else None) as H.
  { induction l as [|il l IH]; intros acc Hacc; simpl; [done|].
    apply IH. by apply find_step_dico. }
  apply H. simpl. by rewrite lookup_empty.
Qed.

(** The second loop: every name ends with its spans laid over what it
    started with, and fails only where a conversion fails. *)
Lemma fill_fields_spec lines indexes :
  ∀ dico : gmap string record,
    (∀ f, f ∈ indexes.*1 → is_Some (dico !! f)) →
    spans_ok lines indexes = true →
    ∃ d, fill_fields lines indexes dico = Ok d ∧
         ∀ f, d !! f = overlay lines indexes f <$> dico !! f.
Proof.
  unfold spans_ok, overlay.
  induction indexes as [|[field istart] rest IH]; intros dico Hdom Hok.
  - exists dico. split; [done|]. intros f. simpl. by destruct (dico !! f).
  - simpl in Hok. apply andb_prop in Hok as [Hok1 Hok2].
    destruct (Hdom field) as [r Hr]; [simpl; left|].
    simpl. rewrite Hr. unfold mbind, result_bind.
    rewrite (fill_span_ok _ _ _ _ Hok1). simpl.
    destruct (IH (<[field := span_record lines istart (span_end lines rest) ∪ r]> dico))
      as (d & Hd & Hlook); [|done|].
    { intros f Hf. destruct (decide (field = f)) as [->|Hne].
      - rewrite lookup_insert_eq. eauto.
      - rewrite lookup_insert_ne by done. apply Hdom. simpl. by right. }
    exists d. split; [done|]. intros f. rewrite Hlook.
    destruct (decide (field = f)) as [->|Hne].
    + by rewrite lookup_insert_eq, Hr.
    + by rewrite lookup_insert_ne.
Qed.

(** Declarations of other names do not count in the overlay of [f]. *)
Lemma overlay_skip lines pre l f r :
  f ∉ pre.*1 → overlay lines (pre ++ l) f r = overlay lines l f r.
Proof.
  unfold overlay. induction pre as [|[g i] pre IH]; intros Hnin; [done|].
  simpl. rewrite decide_False.
  - apply IH. intros Hin. apply Hnin. simpl. by right.
  - intros ->. apply Hnin. simpl. left.
Qed.

Lemma overlay_cons lines i l f r :
  overlay lines ((f, i) :: l) f r =
    overlay lines l f (span_record lines i (span_end lines l) ∪ r).
Proof. unfold overlay. simpl. by rewrite decide_True. Qed.

Lemma overlay_none lines l f r : f ∉ l.*1 → overlay lines l f r = r.
Proof.
  intros Hnin. rewrite <- (app_nil_r l). by rewrite overlay_skip.
Qed.

(** ** What a match tells *)

(** A successful run has called its continuation on a suffix that is
    shorter by the least length of the pattern at least, with the groups it
    got changed under the names of the pattern only. *)
Lemma run_inv (r : regex) :
  ∀ s g k m, run r s g k = Some m →
    ∃ s' g', k s' g' = Some m ∧
             (String.length s' + min_length r ≤ String.length s)%nat ∧
             ∀ name, name ∉ group_names r → g' !! name = g !! name.
Proof.
  induction r as [|c|p|r1 IH1 r2 IH2|r1 IH1 r2 IH2|r1 IH1|name r1 IH1];
    intros s g k m Hrun; simpl in Hrun.
  - exists s, g. repeat split; [done|simpl; lia].
  - destruct s as [|a s']; [done|]. destruct (Ascii.eqb a c); [|done].
    exists s', g. repeat split; [done|simpl; lia].
  - destruct s as [|a s']; [done|]. destruct (p a); [|done].
    exists s', g. repeat split; [done|simpl; lia].
  - apply IH1 in Hrun as (s1 & g1 & Hrun & Hlen1 & Hg1).
    apply IH2 in Hrun as (s2 & g2 & Hrun & Hlen2 & Hg2).
    exists s2, g2. repeat split; [done|simpl; lia|].
    intros name Hname. simpl in Hname. apply not_elem_of_app in Hname as [? ?].
    rewrite Hg2, Hg1; done.
  - destruct (run r1 s g k) as [m1|] eqn:Hrun1.
    + injection Hrun as ->.
      apply IH1 in Hrun1 as (s1 & g1 & Hrun & Hlen1 & Hg1).
      exists s1, g1. repeat split; [done|simpl; lia|].
      intros name Hname. simpl in Hname. apply not_elem_of_app in Hname as [? ?].
      by apply Hg1.
    + apply IH2 in Hrun as (s2 & g2 & Hrun & Hlen2 & Hg2).
      exists s2, g2. repeat split; [done|simpl; lia|].
      intros name Hname. simpl in Hname. apply not_elem_of_app in Hname as [? ?].
      by apply Hg2.
  - revert Hrun. generalize (String.length s) at 1. intros n. revert s g.
    induction n as [|n IHn]; intros s g Hrun.
    + exists s, g. repeat split; [done|simpl; lia].
    + destruct (run r1 s g _) as [m1|] eqn:Hrun1.
      * injection Hrun as ->.
        apply IH1 in Hrun1 as (s1 & g1 & Hrun & Hlen1 & Hg1).
        destruct (String.length s1 <? String.length s)%nat eqn:Hlt; [|done].
        apply IHn in Hrun as (s2 & g2 & Hrun & Hlen2 & Hg2).
        exists s2, g2. repeat split; [done|simpl in *; lia|].
        intros name Hname. rewrite Hg2, Hg1; done.
      * exists s, g. repeat split; [done|simpl; lia].
  - apply IH1 in Hrun as (s1 & g1 & Hrun & Hlen1 & Hg1).
    exists s1, (<[name := consumed s s1]> g1).
    repeat split; [exact Hrun|simpl; lia|].
    intros nm Hnm. simpl in Hnm. apply not_elem_of_cons in Hnm as [? ?].
    rewrite lookup_insert_ne by done. by apply Hg1.
Qed.

(** What a sequence consumed is not empty when the rest got shorter. *)
Lemma consumed_nonempty s s' :
  (String.length s' < String.length s)%nat → truthy (Some (consumed s s')) = true.
Proof.
  intros Hlt. unfold consumed.
  destruct s as [|a s0]; simpl in *; [lia|].
  destruct (S (String.length s0) - String.length s')%nat eqn:Hn; [lia|done].
Qed.

(** A match of the attribute pattern either has its [int] group, not empty,
    or has no [key] group: the line went through the alternative
    "key, equal sign, integer", or through "real, semicolon". *)
Lemma run_Seq (r1 r2 : regex) s g k :
  run (Seq r1 r2) s g k = run r1 s g (λ s' g', run r2 s' g' k).
Proof. reflexivity. Qed.

Lemma run_Alt (r1 r2 : regex) s g k :
  run (Alt r1 r2) s g k =
    match run r1 s g k with
    | Some m => Some m
    | None => run r2 s g k
    end.
Proof. reflexivity. Qed.

Lemma run_Group name (r1 : regex) s g k :
  run (Group name r1) s g k =
    run r1 s g (λ s' g', k s' (<[name := consumed s s']> g')).
Proof. reflexivity. Qed.

Lemma re_keyvalue_groups line m :
  rmatch re_keyvalue line = Some m →
  truthy (group m "int") = true ∨ group m "key" = None.
Proof.
  unfold rmatch, re_keyvalue. rewrite run_Alt.
  destruct (run (Seq (Group "key" _) _) line ∅ _) as [m1|] eqn:Hleft.
  - intros [= ->]. left.
    rewrite run_Seq in Hleft.
    apply run_inv in Hleft as (s1 & g1 & Hrun & _ & _). cbv beta in Hrun.
    rewrite run_Seq in Hrun.
    apply run_inv in Hrun as (s2 & g2 & Hrun & _ & _). cbv beta in Hrun.
    rewrite run_Seq in Hrun.
    apply run_inv in Hrun as (s3 & g3 & Hrun & _ & _). cbv beta in Hrun.
    rewrite run_Seq in Hrun.
    apply run_inv in Hrun as (s4 & g4 & Hrun & _ & _). cbv beta in Hrun.
    unfold re_int_g in Hrun. rewrite run_Group in Hrun.
    apply run_inv in Hrun as (s5 & g5 & Hrun & Hlen & _).
    injection Hrun as <-. unfold group. rewrite lookup_insert_eq.
    apply consumed_nonempty. simpl in Hlen. lia.
  - intros Hrun. right.
    apply run_inv in Hrun as (s1 & g1 & Hrun & _ & Hg).
    injection Hrun as <-. unfold group. rewrite Hg; [done|].
    simpl. intros Hin. repeat (apply elem_of_cons in Hin as [?|Hin]; [done|]).
    by apply elem_of_nil in Hin.
Qed.

(** The attribute lines write integers under their keys; a real goes under
    the key [None]. *)
Lemma fill_attrs_keyed_ints ls :
  ∀ r r', keyed_ints r → fill_attrs ls r = Ok r' → keyed_ints r'.
Proof.
  induction ls as [|line rest IH]; intros r r' Hr Hrun; simpl in Hrun.
  - by injection Hrun as <-.
  - destruct (rmatch re_keyvalue line) as [m|] eqn:Hm; [|by eapply IH].
    destruct (truthy (group m "int")) eqn:Hint.
    { unfold mbind, result_bind in Hrun.
      destruct (py_int _) as [z|]; simpl in Hrun; [|done].
      eapply IH; [|exact Hrun]. intros k v.
      destruct (decide (group m "key" = Some k)) as [->|Hne].
      - rewrite lookup_insert_eq. intros [= <-]. left. eauto.
      - rewrite lookup_insert_ne by done. apply Hr. }
    destruct (truthy (group m "real")); [|by eapply IH].
    unfold mbind, result_bind in Hrun.
    destruct (py_float _) as [x|]; simpl in Hrun; [|done].
    destruct (re_keyvalue_groups line m Hm) as [Hint'|Hkey]; [congruence|].
    eapply IH; [|exact Hrun]. intros k v. rewrite Hkey.
    rewrite lookup_insert_ne by done. apply Hr.
Qed.

Lemma fill_span_keyed_ints lines i j r r' :
  keyed_ints r → fill_span lines i j r = Ok r' → keyed_ints r'.
Proof.
  unfold fill_span. intros Hr. apply fill_attrs_keyed_ints.
  unfold set_comment. destruct (lines !! _) as [prev|]; [|done].
  destruct (_ && _); [|done].
  intros k v. destruct (decide (comment_key = Some k)) as [[= <-]|Hne].
  - rewrite lookup_insert_eq. intros [= <-]. right. eauto.
  - rewrite lookup_insert_ne by done. apply Hr.
Qed.

Lemma fill_fields_keyed_ints lines indexes :
  ∀ dico d,
    (∀ f r, dico !! f = Some r → keyed_ints r) →
    fill_fields lines indexes dico = Ok d →
    ∀ f r, d !! f = Some r → keyed_ints r.
Proof.
  induction indexes as [|[field istart] rest IH]; intros dico d Hdico Hrun;
    simpl in Hrun.
  - by injection Hrun as <-.
  - destruct (dico !! field) as [r0|] eqn:Hr0; [|done].
    unfold mbind, result_bind in Hrun.
    destruct (fill_span lines istart _ r0) as [r1|] eqn:Hspan;
      simpl in Hrun; [|done].
    eapply IH; [|exact Hrun]. intros f r.
    destruct (decide (field = f)) as [->|Hne].
    + rewrite lookup_insert_eq. intros [= <-].
      eapply fill_span_keyed_ints; [|exact Hspan]. by eapply Hdico.
    + rewrite lookup_insert_ne by done. apply Hdico.
Qed.

End ParserProps.

(** C2 (as the code runs it): on the file of the parsing example, the record
    of [foo] holds [key = 3] and [other = 1], both integers. The bar of the
    attribute pattern separates "key = integer" from "real ;", so the line
    [other = 1.5e+2 ;] matches the first alternative with the integer [1];
    the real [150.0] that [float] gives for the literal is never stored. *)
Theorem C2_real_literal_stored_as_int :
  parse Examples.text_foo =
    Ok {[ "foo" := {[ Some "key" := VInt 3; Some "other" := VInt 1 ]} ]}
  ∧ rmatch re_keyvalue "other = 1.5e+2 ;" =
      Some {[ "key" := "other"; "int" := "1" ]}
  ∧ py_float "1.5e+2" = Ok Examples.float_150
  ∧ py_eq (VInt 1) (VFloat Examples.float_150) = false.
Proof. repeat split; vm_compute; reflexivity. Qed.

(** C9: when a name is declared twice in a file (and the numeric conversions
    of the file succeed), parsing returns a fragment with one record for the
    name: the items of the second span laid over those of the first. An item
    of the second span wins on a shared key, the other items of both spans
    are kept. *)
Theorem C9_duplicate_field_accumulates text f i1 i2 pre mid post :
  let lines := unfold_lines text in
  (find_fields lines).1 = pre ++ (f, i1) :: mid ++ (f, i2) :: post →
  f ∉ (pre ++ mid ++ post).*1 →
  spans_ok lines (find_fields lines).1 = true →
  let r1 := span_record lines i1 (span_end lines (mid ++ (f, i2) :: post)) in
  let r2 := span_record lines i2 (span_end lines post) in
  ∃ d, parse text = Ok d ∧ d !! f = Some (r2 ∪ r1) ∧
       ∀ k, (r2 ∪ r1) !! k =
              match r2 !! k with Some v => Some v | None => r1 !! k end.
Proof.
  intros lines Hidx Hnin Hok r1 r2.
  unfold parse, parse_lines. fold lines.
  pose proof (find_fields_dico lines) as Hdico.
  destruct (find_fields lines) as [indexes dico] eqn:Hff. simpl in *.
  destruct (fill_fields_spec lines indexes dico) as (d & Hd & Hlook); [|done|].
  { intros g Hg. rewrite Hdico, decide_True by done. eauto. }
  exists d. split; [done|]. split.
  - rewrite Hlook, Hdico, decide_True.
    2:{ rewrite Hidx, fmap_app, fmap_cons. apply elem_of_app. right. left. }
    simpl. f_equal. rewrite Hidx.
    rewrite !fmap_app, !not_elem_of_app in Hnin.
    destruct Hnin as (Hpre & Hmid & Hpost).
    rewrite overlay_skip by done.
    rewrite overlay_cons, overlay_skip by done.
    rewrite overlay_cons, overlay_none by done.
    by rewrite (right_id_L ∅ (∪)).
  - intros k. rewrite lookup_union. destruct (r2 !! k), (r1 !! k); done.
Qed.

Lemma C9_witness :
  ∃ d, parse Examples.text_twice = Ok d ∧
       d !! "t" = Some ({[ Some "b" := VInt 7; Some "c" := VInt 9 ]}
                        ∪ {[ Some "a" := VInt 1; Some "b" := VInt 2 ]}).
Proof.
  destruct (C9_duplicate_field_accumulates Examples.text_twice "t" 0 4 [] [] [])
    as (d & Hd & Hf & _).
  - reflexivity.
  - apply not_elem_of_nil.
  - reflexivity.
  - exists d. split; [exact Hd|]. rewrite Hf. vm_compute. reflexivity.
Defined.

(* ===================================================================== *)
(** * Properties of the store *)
(* ===================================================================== *)

Ltac munfold :=
  unfold index, copy, pop in *;
  unfold mbind, M_bind, mret, M_ret in *;
  unfold bind, ret, raise, lift, get_self, put_self, load, store, alloc,
    open in *.

Section Frames.

Implicit Types (w : world) (l : loc) (r : record).

Lemma frame_refl w : frame w w.
Proof. by repeat split. Qed.

Lemma frame_trans w1 w2 w3 : frame w1 w2 → frame w2 w3 → frame w1 w3.
Proof.
  intros (Hf1 & Hs1 & Hh1) (Hf2 & Hs2 & Hh2). repeat split; [congruence..|].
  intros l Hl. rewrite <- (Hh1 l Hl). apply Hh2.
  apply elem_of_dom. rewrite (Hh1 l Hl). by apply elem_of_dom.
Qed.

Lemma frame_set_init_runs w n : frame w (set_init_runs n w).
Proof. by repeat split. Qed.

(** A fresh object, then any writes to it, leave the objects of [w]. *)
Lemma frame_fresh w h :
  (∀ l, l ∈ dom (heap w) → h !! l = heap w !! l) → frame w (set_heap h w).
Proof. by repeat split. Qed.

Lemma fresh_not_in (h : gmap loc record) l :
  l ∈ dom h → l ≠ fresh (dom h).
Proof. intros Hl ->. by apply (is_fresh (dom h)). Qed.

Lemma frame_stored w w' e c f :
  wf w → frame w w' → stored w' e c f = stored w e c f.
Proof.
  intros Hwf (_ & Hs & Hh). unfold stored. rewrite Hs.
  destruct (tables (self w) !! e) as [t|] eqn:Ht; simpl; [|done].
  destruct (t !! c) as [tb|] eqn:Htb; simpl; [|done].
  destruct (tb !! f) as [l|] eqn:Hl; simpl; [|done].
  apply Hh. eapply Hwf; eauto.
Qed.

Lemma frame_wf w w' : wf w → frame w w' → wf w'.
Proof.
  intros Hwf (_ & Hs & Hh) e t c tb f l Ht Htb Hl. rewrite Hs in Ht.
  pose proof (Hwf e t c tb f l Ht Htb Hl) as Hin.
  apply elem_of_dom. rewrite (Hh l Hin). by apply elem_of_dom.
Qed.

End Frames.

Section Reading.

Implicit Types (w : world) (l : loc) (r : record).

(** The records of a fragment become new objects, one per field, and no
    object of the heap changes. *)
Lemma new_records_go (items : list (string * record)) :
  NoDup items.*1 →
  ∀ (refs : table) w,
    (∀ f y, refs !! f = Some y → y ∈ dom (heap w)) →
    ∃ (refs' : table) h',
      foldM new_record items refs w = (Ok refs', set_heap h' w) ∧
      heap w ⊆ h' ∧
      (∀ f y, refs' !! f = Some y → y ∈ dom h') ∧
      ∀ f, (refs' !! f ≫= (h' !!.)) =
             match (list_to_map items : gmap string record) !! f with
             | Some r => Some r
             | None => refs !! f ≫= (heap w !!.)
             end.
Proof.
  induction items as [|[f0 r0] items IH]; intros Hnd refs w Hrefs.
  - exists refs, (heap w). simpl. split; [by destruct w|].
    split; [done|]. split; [done|]. intros f. by rewrite lookup_empty.
  - apply NoDup_cons in Hnd as [Hf0 Hnd]. simpl.
    set (x := fresh (dom (heap w))).
    assert (heap w !! x = None) as Hx.
    { apply not_elem_of_dom. apply is_fresh. }
    destruct (IH Hnd (<[f0 := x]> refs) (set_heap (<[x := r0]> (heap w)) w))
      as (refs' & h' & Hrun & Hsub & Hdom & Hlook).
    { intros f y. simpl. rewrite dom_insert. intros Hy.
      destruct (decide (f0 = f)) as [->|Hne].
      - rewrite lookup_insert_eq in Hy. injection Hy as <-.
        apply elem_of_union. left. by apply elem_of_singleton.
      - rewrite lookup_insert_ne in Hy by done.
        apply elem_of_union. right. by eapply Hrefs. }
    exists refs', h'. simpl in *.
    split; [|split; [|split; [done|]]].
    + munfold. simpl. fold x. exact Hrun.
    + etrans; [|exact Hsub]. by apply insert_subseteq.
    + intros f. rewrite Hlook.
      destruct (decide (f0 = f)) as [->|Hne].
      * rewrite !lookup_insert_eq.
        rewrite (not_elem_of_list_to_map_1 _ _ Hf0). simpl.
        by rewrite lookup_insert_eq.
      * rewrite !lookup_insert_ne by done.
        destruct (list_to_map items !! f); [done|].
        destruct (refs !! f) as [y|] eqn:Hy; simpl; [|done].
        rewrite lookup_insert_ne; [done|].
        apply not_eq_sym, fresh_not_in. eauto.
Qed.

Lemma new_records_spec (frag : gmap string record) w :
  ∃ (refs : table) h',
    new_records frag w = (Ok refs, set_heap h' w) ∧
    heap w ⊆ h' ∧
    (∀ f y, refs !! f = Some y → y ∈ dom h') ∧
    ∀ f, (refs !! f ≫= (h' !!.)) = frag !! f.
Proof.
  destruct (new_records_go (map_to_list frag) (NoDup_fst_map_to_list _) ∅ w)
    as (refs & h' & Hrun & Hsub & Hdom & Hlook).
  { intros f y. by rewrite lookup_empty. }
  exists refs, h'. repeat split; try done.
  intros f. rewrite Hlook, list_to_map_to_list, lookup_empty.
  by destruct (frag !! f).
Qed.

End Reading.

Section Registering.

Implicit Types (w : world) (l : loc) (r : record).

(** What [read] does once the edition is known, the edition registered,
    and the file read and parsed. *)
Lemma read_run filename ge g t text frag w :
  infer_edition filename ge = Some g →
  tables (self w) !! g = Some t →
  files w !! filename = Some text →
  parse text = Ok frag →
  ∃ (refs : table) h',
    heap w ⊆ h' ∧
    (∀ f y, refs !! f = Some y → y ∈ dom h') ∧
    (∀ f, (refs !! f ≫= (h' !!.)) = frag !! f) ∧
    read filename ge w =
      (Ok tt,
       set_self
         (set_tables
            (<[g := <[concept_of filename :=
                        match t !! concept_of filename with
                        | Some old => refs ∪ old
                        | None => refs
                        end]> t]> (tables (self w))) (self w))
         (set_heap h' w)).
Proof.
  intros Hg Ht Htext Hfrag.
  destruct (new_records_spec frag w) as (refs & h' & Hrun & Hsub & Hdom & Hlook).
  exists refs, h'. repeat split; try done.
  unfold read, read_gribdef. rewrite Hg. munfold. simpl.
  rewrite Ht, Htext, Hfrag, Hrun. reflexivity.
Qed.

End Registering.

Section Registered.

Implicit Types (w : world) (l : loc) (r : record).

Lemma wf_check_sound w : wf_check w = true → wf w.
Proof.
  intros Hc%bool_decide_eq_true e t c tb f l Ht Htb Hl.
  exact (Hc e t Ht c tb Htb f l Hl).
Qed.

Lemma read_spec filename ge g t text frag w :
wf w →
infer_edition filename ge = Some g →
tables (self w) !! g = Some t →
files w !! filename = Some text →
parse text = Ok frag →
∃ w', read filename ge w = (Ok tt, w') ∧ wf w' ∧
  (∀ f, stored w' g (concept_of filename) f =
          match frag !! f with
          | Some r => Some r
          | None => stored w g (concept_of filename) f
          end) ∧
  (∀ e c f, (e, c) ≠ (g, concept_of filename) →
            stored w' e c f = stored w e c f).
Proof.
intros Hwf Hg Ht Htext Hfrag.
destruct (read_run _ _ _ _ _ _ _ Hg Ht Htext Hfrag)
  as (refs & h' & Hsub & Hdom & Hlook & Hread).
eexists. split; [exact Hread|].
set (cpt := concept_of filename) in *.
assert (∀ y, y ∈ dom (heap w) → h' !! y = heap w !! y) as Hold.
{ intros y [r Hy]%elem_of_dom. rewrite Hy. by eapply lookup_weaken. }
assert (∀ f, frag !! f = None → refs !! f = None) as Hnone.
{ intros f Hf. destruct (refs !! f) as [y|] eqn:Hy; [|done].
  specialize (Hlook f). rewrite Hy, Hf in Hlook. simpl in Hlook.
  apply Hdom, elem_of_dom in Hy as [r Hr]. congruence. }
split; [|split].
- intros e t' c tb f l. simpl.
  destruct (decide (g = e)) as [<-|Hne].
  2:{ rewrite lookup_insert_ne by done. intros H1 H2 H3.
      apply elem_of_dom. rewrite Hold; [apply elem_of_dom|]; eapply Hwf; eauto. }
  rewrite lookup_insert_eq. intros [= <-].
  destruct (decide (cpt = c)) as [<-|Hnc].
  2:{ rewrite lookup_insert_ne by done. intros H2 H3.
      apply elem_of_dom. rewrite Hold; [apply elem_of_dom|]; eapply Hwf; eauto. }
  rewrite lookup_insert_eq. intros [= <-] Hl.
  destruct (t !! cpt) as [old|] eqn:Hcpt; [|by eapply Hdom].
  apply lookup_union_Some_raw in Hl as [Hl|[_ Hl]]; [by eapply Hdom|].
  apply elem_of_dom. rewrite Hold; [apply elem_of_dom|]; eapply Hwf; eauto.
- intros f. unfold stored. simpl.
  rewrite Ht, lookup_insert_eq. simpl.
  specialize (Hlook f).
  destruct (frag !! f) as [r|] eqn:Hf.
  + destruct (refs !! f) as [y|] eqn:Hy; [|done]. simpl in Hlook.
    destruct (t !! cpt) as [old|]; rewrite lookup_insert_eq; simpl.
    * by rewrite (lookup_union_Some_l _ _ _ _ Hy).
    * by rewrite Hy.
  + pose proof (Hnone f Hf) as Hrf.
    destruct (t !! cpt) as [old|] eqn:Hcpt; rewrite lookup_insert_eq; simpl.
    2:{ by rewrite Hrf. }
    rewrite lookup_union_r by done.
    destruct (old !! f) as [y|] eqn:Hy; simpl; [|done].
    apply Hold. eapply Hwf; eauto.
- intros e c f Hne. unfold stored. simpl.
  destruct (decide (g = e)) as [<-|Hge].
  2:{ rewrite lookup_insert_ne by done.
      destruct (tables (self w) !! e) as [t'|] eqn:Ht'; simpl; [|done].
      destruct (t' !! c) as [tb|] eqn:Htb; simpl; [|done].
      destruct (tb !! f) as [y|] eqn:Hy; simpl; [|done].
      apply Hold. eapply Hwf; eauto. }
  rewrite lookup_insert_eq, Ht. simpl.
  rewrite lookup_insert_ne by congruence.
  destruct (t !! c) as [tb|] eqn:Htb; simpl; [|done].
  destruct (tb !! f) as [y|] eqn:Hy; simpl; [|done].
  apply Hold. eapply Hwf; eauto.
Qed.

(** A store just built by the base class refers to no record. *)
Lemma init_wf b concepts w : wf (__init__ pass b concepts w).2.
Proof.
  assert (∀ (t : gmap string table) c tb,
            list_to_map ((λ c : string, (c, (∅ : table))) <$> concepts) = t →
            t !! c = Some tb → tb = ∅) as Hempty.
  { intros t c tb <- Hc. apply elem_of_list_to_map_2 in Hc.
    apply list_elem_of_fmap in Hc as (c' & [= _ ->] & _). done. }
  intros e t c tb f l. destruct b; simpl.
  all: rewrite lookup_insert, lookup_singleton.
  all: intros Ht Htb Hl.
  all: repeat case_decide; simplify_eq.
  all: rewrite (Hempty _ c tb eq_refl Htb) in Hl.
  all: by rewrite lookup_empty in Hl.
Qed.

(** Whatever [read] does, no reference of the store dangles after it. *)
Lemma read_wf filename ge w : wf w → wf (read filename ge w).2.
Proof.
  intros Hwf.
  destruct (infer_edition filename ge) as [g|] eqn:Hg.
  2:{ unfold read. rewrite Hg. by munfold. }
  destruct (tables (self w) !! g) as [t|] eqn:Ht.
  2:{ unfold read. rewrite Hg. munfold. simpl. by rewrite Ht. }
  destruct (files w !! filename) as [text|] eqn:Htext.
  2:{ unfold read, read_gribdef. rewrite Hg. munfold. simpl.
      by rewrite Ht, Htext. }
  destruct (parse text) as [frag|e] eqn:Hfrag.
  2:{ unfold read, read_gribdef. rewrite Hg. munfold. simpl.
      by rewrite Ht, Htext, Hfrag. }
  destruct (read_spec _ _ _ _ _ _ _ Hwf Hg Ht Htext Hfrag) as (w' & -> & ? & _).
  done.
Qed.

Lemma infer_edition_None filename :
  infer_edition filename None =
    if contains "grib2" filename then Some "grib2"
    else if contains "grib1" filename then Some "grib1"
    else None.
Proof.
  unfold infer_edition, editions. simpl.
  by destruct (contains "grib1" filename), (contains "grib2" filename).
Qed.

End Registered.

(** C1 (amended): registering a file in a table replaces the record of each
    field that the file declares by the record parsed from the file, adds
    the fields that are new, and keeps every other field of the table, and
    every other table, as it was. *)
Theorem C1_read_replaces_field_records filename ge g t text frag w :
  wf w →
  infer_edition filename ge = Some g →
  tables (self w) !! g = Some t →
  files w !! filename = Some text →
  parse text = Ok frag →
  ∃ w', read filename ge w = (Ok tt, w') ∧ wf w' ∧
    (∀ f, stored w' g (concept_of filename) f =
            match frag !! f with
            | Some r => Some r
            | None => stored w g (concept_of filename) f
            end) ∧
    (∀ e c f, (e, c) ≠ (g, concept_of filename) →
              stored w' e c f = stored w e c f).
Proof. apply read_spec. Qed.

Lemma C1_witness :
  ∃ w', read "second/grib2/merge.def" None Examples.w_first = (Ok tt, w') ∧
        stored w' "grib2" "merge" "foo" = Some {[ Some "b" := VInt 2 ]}.
Proof.
  destruct (C1_read_replaces_field_records "second/grib2/merge.def" None
              "grib2" {[ "merge" := {[ "foo" := 1%positive ]} ]}
              Examples.text_second {[ "foo" := {[ Some "b" := VInt 2 ]} ]}
              Examples.w_first)
    as (w' & Hread & _ & Hfoo & _).
  - apply wf_check_sound. vm_compute. reflexivity.
  - vm_compute. reflexivity.
  - vm_compute. reflexivity.
  - vm_compute. reflexivity.
  - vm_compute. reflexivity.
  - exists w'. split; [exact Hread|]. exact (Hfoo "foo").
Defined.

(** C1 (as stated) fails: after a second file that declares [foo] with the
    attribute [b] only, the record of [foo] is the one of the second file;
    the attribute [a] of the first file is gone, so the record is not the
    union of the two. *)
Lemma C1_counterexample :
  stored Examples.w_first "grib2" "merge" "foo" = Some {[ Some "a" := VInt 1 ]}
  ∧ parse Examples.text_second = Ok {[ "foo" := {[ Some "b" := VInt 2 ]} ]}
  ∧ stored Examples.w_second "grib2" "merge" "foo"
      = Some {[ Some "b" := VInt 2 ]}
  ∧ stored Examples.w_second "grib2" "merge" "foo"
      ≠ Some ({[ Some "b" := VInt 2 ]} ∪ {[ Some "a" := VInt 1 ]}).
Proof.
  repeat split; try (vm_compute; reflexivity).
  intros H. apply (f_equal (λ o, o ≫= (.!! Some "a"))) in H.
  vm_compute in H. discriminate.
Qed.

(** C10: without an explicit edition, a file whose name contains [grib2]
    is registered under [grib2], also when the name contains [grib1]: the
    records of the file are then the records of its concept under [grib2],
    and every other table, those of [grib1] among them, shows what it
    showed. A name with [grib1] only is registered under [grib1] in the same
    way. A file name that contains neither makes [read] raise (a KeyError,
    before the file is opened) and leaves the store as it was. *)
Theorem C10_edition_from_file_name filename w :
  (contains "grib2" filename = true →
     infer_edition filename None = Some "grib2"
     ∧ read filename None w = read filename (Some "grib2") w
     ∧ ∀ t text frag,
         wf w → tables (self w) !! "grib2" = Some t →
         files w !! filename = Some text → parse text = Ok frag →
         ∃ w', read filename None w = (Ok tt, w')
           ∧ (∀ f, stored w' "grib2" (concept_of filename) f =
                     match frag !! f with
                     | Some r => Some r
                     | None => stored w "grib2" (concept_of filename) f
                     end)
           ∧ (∀ e c f, (e, c) ≠ ("grib2", concept_of filename) →
                       stored w' e c f = stored w e c f))
  ∧ (contains "grib2" filename = false → contains "grib1" filename = true →
     infer_edition filename None = Some "grib1"
     ∧ read filename None w = read filename (Some "grib1") w
     ∧ ∀ t text frag,
         wf w → tables (self w) !! "grib1" = Some t →
         files w !! filename = Some text → parse text = Ok frag →
         ∃ w', read filename None w = (Ok tt, w')
           ∧ (∀ f, stored w' "grib1" (concept_of filename) f =
                     match frag !! f with
                     | Some r => Some r
                     | None => stored w "grib1" (concept_of filename) f
                     end)
           ∧ (∀ e c f, (e, c) ≠ ("grib1", concept_of filename) →
                       stored w' e c f = stored w e c f))
  ∧ (contains "grib2" filename = false → contains "grib1" filename = false →
     read filename None w = (Raise KeyError, w)).
Proof.
  split; [|split].
  - intros H2.
    assert (infer_edition filename None = Some "grib2") as Hg
      by by rewrite infer_edition_None, H2.
    split; [done|]. split.
    { unfold read. by rewrite Hg. }
    intros t text frag Hwf Ht Htext Hfrag.
    destruct (read_spec filename None "grib2" t text frag w
                Hwf Hg Ht Htext Hfrag) as (w' & Hread & _ & Hst & Hother).
    by exists w'.
  - intros H2 H1.
    assert (infer_edition filename None = Some "grib1") as Hg
      by by rewrite infer_edition_None, H2, H1.
    split; [done|]. split.
    { unfold read. by rewrite Hg. }
    intros t text frag Hwf Ht Htext Hfrag.
    destruct (read_spec filename None "grib1" t text frag w
                Hwf Hg Ht Htext Hfrag) as (w' & Hread & _ & Hst & Hother).
    by exists w'.
  - intros H2 H1. unfold read. by rewrite infer_edition_None, H2, H1.
Qed.

Lemma C10_witness :
  (∃ w', read "defs/grib1/or/grib2/demo.def" None Examples.w_both = (Ok tt, w')
         ∧ stored w' "grib2" "demo" "foo"
           = Some {[ Some "key" := VInt 3; Some "x" := VInt 1 ]}
         ∧ stored w' "grib1" "demo" "foo" = None)
  ∧ read "defs/grib3/x.def" None Examples.w_lazy
    = (Raise KeyError, Examples.w_lazy).
Proof.
  split.
  - destruct (proj1 (C10_edition_from_file_name "defs/grib1/or/grib2/demo.def"
                       Examples.w_both) eq_refl) as (_ & _ & Hfiled).
    destruct (Hfiled ∅ Examples.text_demo
                {[ "foo" := {[ Some "key" := VInt 3; Some "x" := VInt 1 ]};
                   "bar" := {[ Some "key" := VInt 4 ]} ]})
      as (w' & Hread & Hst & Hother).
    + apply wf_check_sound. vm_compute. reflexivity.
    + vm_compute. reflexivity.
    + vm_compute. reflexivity.
    + vm_compute. reflexivity.
    + exists w'. split; [exact Hread|]. split; [exact (Hst "foo")|].
      rewrite (Hother "grib1" "demo" "foo") by (by intros [=]).
      vm_compute. reflexivity.
  - apply (proj2 (proj2 (C10_edition_from_file_name "defs/grib3/x.def"
                           Examples.w_lazy))); reflexivity.
Defined.


Section Lookups.

Variable str2dict : string → result record.
Variable hook : M unit.

Implicit Types (w : world) (l : loc) (r h : record) (fields tb : table).

(** The test on one field, in words: every key of the identifier set is a
    key of the record, with an equal value. *)
Lemma matches_spec h r :
  matches h r = true ↔
  ∀ k v, h !! k = Some v → ∃ x, r !! k = Some x ∧ py_eq x v = true.
Proof.
  unfold matches. rewrite andb_true_iff, bool_decide_eq_true, forallb_forall.
  split.
  - intros [_ Hall] k v Hkv.
    specialize (Hall (k, v)). simpl in Hall.
    destruct (r !! k) as [x|].
    + exists x. split; [done|]. unfold py_ne in Hall.
      rewrite negb_involutive in Hall. apply Hall.
      apply list_elem_of_In. by apply elem_of_map_to_list.
    + discriminate Hall. apply list_elem_of_In. by apply elem_of_map_to_list.
  - intros Hall. split.
    + intros k [v Hkv]%elem_of_dom. destruct (Hall k v Hkv) as (x & Hx & _).
      apply elem_of_dom. eauto.
    + intros [k v] Hin%list_elem_of_In%elem_of_map_to_list.
      destruct (Hall k v Hin) as (x & -> & Heq).
      unfold py_ne. by rewrite Heq.
Qed.

(** ** Direct lookup *)

Lemma get_def_mtd_present name c e ic w t tb l r :
  tables (self w) !! e = Some t → t !! c = Some tb → tb !! name = Some l →
  heap w !! l = Some r →
  get_def_mtd (FidStr name) c e ic w =
    (Ok (fresh (dom (heap w))),
     set_heap (<[fresh (dom (heap w)) := handed_out ic r]> (heap w)) w).
Proof.
  intros Ht Htb Hl Hr. unfold get_def_mtd. munfold. simpl.
  rewrite Ht, Htb, Hl, Hr. simpl.
  destruct ic; simpl; [done|].
  rewrite lookup_insert_eq.
  destruct (decide (comment_key ∈ dom r)) as [Hin|Hnin].
  - simpl. rewrite lookup_insert_eq.
    apply elem_of_dom in Hin as [v Hv]. rewrite Hv. simpl.
    by rewrite insert_insert_eq.
  - simpl. by rewrite delete_id by by apply not_elem_of_dom.
Qed.

Lemma get_def_mtd_frame fid c e ic w :
  frame w (get_def_mtd fid c e ic w).2 ∧
  init_runs (get_def_mtd fid c e ic w).2 = init_runs w.
Proof.
  unfold get_def_mtd. munfold. simpl.
  repeat (case_match; simplify_eq/=); try (split; [apply frame_refl|done]).
  all: unfold frame; simpl; repeat split; intros y Hy;
    rewrite ?lookup_insert_ne by (apply not_eq_sym; by apply fresh_not_in);
    done.
Qed.

(** ** Reverse lookup *)

(** The first loop only adds objects, and what it puts in [fields] is new
    with respect to the objects [D] that existed before the call. *)
Lemma select_frame (D : gset loc) h items :
  ∀ fields w,
    D ⊆ dom (heap w) →
    (∀ f y, fields !! f = Some y → y ∉ D) →
    files (foldM (select h) items fields w).2 = files w ∧
    self (foldM (select h) items fields w).2 = self w ∧
    init_runs (foldM (select h) items fields w).2 = init_runs w ∧
    heap w ⊆ heap (foldM (select h) items fields w).2 ∧
    ∀ fields', (foldM (select h) items fields w).1 = Ok fields' →
               ∀ f y, fields' !! f = Some y → y ∉ D.
Proof.
  induction items as [|[f0 l0] items IH]; intros fields w HD Hfields.
  - simpl. repeat split; try done. by intros fields' [= <-].
  - simpl. munfold. simpl.
    destruct (heap w !! l0) as [r|] eqn:Hl0; [|by repeat split].
    destruct (matches h r); simpl; [|by apply IH].
    rewrite Hl0.
    set (x := fresh (dom (heap w))).
    assert (x ∉ dom (heap w)) as Hx by apply is_fresh.
    destruct (IH (<[f0 := x]> fields) (set_heap (<[x := r]> (heap w)) w))
      as (Hf & Hs & Hi & Hh & Hnew).
    { simpl. rewrite dom_insert. intros y Hy.
      apply elem_of_union. right. by apply HD. }
    { intros f y. destruct (decide (f0 = f)) as [->|Hne].
      - rewrite lookup_insert_eq. intros [= <-] Hin. apply Hx. by apply HD.
      - rewrite lookup_insert_ne by done. apply Hfields. }
    repeat split; try done.
    etrans; [|exact Hh]. simpl. apply insert_subseteq.
    by apply not_elem_of_dom.
Qed.

(** The second loop only writes to the objects it is given. *)
Lemma strip_frame (D : gset loc) (items : list (string * loc)) :
  ∀ w,
    (∀ f y, (f, y) ∈ items → y ∉ D) →
    files (foldM strip_comment items tt w).2 = files w ∧
    self (foldM strip_comment items tt w).2 = self w ∧
    init_runs (foldM strip_comment items tt w).2 = init_runs w ∧
    ∀ l, l ∈ D → heap (foldM strip_comment items tt w).2 !! l = heap w !! l.
Proof.
  induction items as [|[f0 y0] items IH]; intros w Hitems; [done|].
  simpl. munfold. simpl.
  destruct (heap w !! y0) as [r|] eqn:Hy0; [|done].
  destruct (r !! comment_key) as [v|]; simpl; [|done].
  destruct (IH (set_heap (<[y0 := delete comment_key r]> (heap w)) w))
    as (Hf & Hs & Hi & Hh).
  { intros f y Hin. apply (Hitems f). by right. }
  repeat split; try done.
  intros l Hl. rewrite (Hh l Hl). simpl.
  apply lookup_insert_ne. intros ->. apply (Hitems f0 l); [left|done].
Qed.

Lemma lookup_from_kv_mtd_frame fid c e ic w :
  frame w (lookup_from_kv_mtd str2dict fid c e ic w).2 ∧
  init_runs (lookup_from_kv_mtd str2dict fid c e ic w).2 = init_runs w.
Proof.
  unfold lookup_from_kv_mtd.
  assert (∀ h,
    let m := (s ← get_self;
              t ← index (tables s) e;
              tb ← index t c;
              fields ← foldM (select h) (map_to_list tb) ∅;
              _ ← (if negb ic then foldM strip_comment (map_to_list fields) tt
                   else mret tt);
              mret fields) in
    frame w (m w).2 ∧ init_runs (m w).2 = init_runs w) as Hbody.
  { intros h. munfold. simpl.
    destruct (tables (self w) !! e) as [t|]; simpl;
      [|split; [apply frame_refl|done]].
    destruct (t !! c) as [tb|]; simpl; [|split; [apply frame_refl|done]].
    destruct (select_frame (dom (heap w)) h (map_to_list tb) ∅ w)
      as (Hf & Hs & Hi & Hh & Hnew); [done|by intros ?? ?%lookup_empty_Some|].
    assert (∀ l, l ∈ dom (heap w) →
              heap (foldM (select h) (map_to_list tb) ∅ w).2 !! l = heap w !! l)
      as Hold.
    { intros l [r Hr]%elem_of_dom. rewrite Hr. by eapply lookup_weaken. }
    destruct (foldM (select h) (map_to_list tb) ∅ w) as [[fields|ex] w1];
      simpl in *; [|by repeat split].
    destruct ic; simpl; [by repeat split|].
    destruct (strip_frame (dom (heap w)) (map_to_list fields) w1)
      as (Hf2 & Hs2 & Hi2 & Hh2).
    { intros f y Hin%elem_of_map_to_list. by eapply Hnew. }
    destruct (foldM strip_comment (map_to_list fields) tt w1) as [[[]|ex] w2];
      simpl in *; (split; [|congruence]); repeat split; try congruence;
      intros l Hl; rewrite (Hh2 l Hl); by apply Hold. }
  destruct fid as [s|h].
  - munfold. simpl. destruct (parse_GRIBstr_todict str2dict s) as [h|ex].
    + apply (Hbody h).
    + split; [apply frame_refl|done].
  - apply (Hbody h).
Qed.

(** With the comments kept, the reverse lookup returns: its loop gives a
    copy of the record of each field that passes the test, and nothing
    for the others. *)
Lemma select_result h (items : list (string * loc)) :
  NoDup items.*1 →
  ∀ fields w,
    (∀ f l, (f, l) ∈ items → l ∈ dom (heap w)) →
    (∀ f y, fields !! f = Some y → y ∈ dom (heap w)) →
    ∃ fields' hp,
      foldM (select h) items fields w = (Ok fields', set_heap hp w) ∧
      heap w ⊆ hp ∧
      (∀ f y, fields' !! f = Some y → y ∈ dom hp) ∧
      ∀ f, (fields' !! f ≫= (hp !!.)) =
             match (list_to_map items : table) !! f with
             | Some l =>
                 match heap w !! l with
                 | Some r => if matches h r then Some r
                             else fields !! f ≫= (heap w !!.)
                 | None => None
                 end
             | None => fields !! f ≫= (heap w !!.)
             end.
Proof.
  induction items as [|[f0 l0] items IH]; intros Hnd fields w Hitems Hfields.
  - exists fields, (heap w). simpl. split; [by destruct w|].
    split; [done|]. split; [done|]. intros f. by rewrite lookup_empty.
  - apply NoDup_cons in Hnd as [Hf0 Hnd]. simpl.
    assert (l0 ∈ dom (heap w)) as [r0 Hr0]%elem_of_dom.
    { apply (Hitems f0). left. }
    assert (∀ f l, (f, l) ∈ items → l ∈ dom (heap w)) as Hitems'.
    { intros f l Hin. apply (Hitems f). by right. }
    pose proof (not_elem_of_list_to_map_1 (M := gmap string) _ _ Hf0) as Hnone.
    simpl in Hnone. munfold. simpl. rewrite Hr0.
    destruct (matches h r0) eqn:Hm; simpl.
    + rewrite Hr0.
      set (x := fresh (dom (heap w))).
      assert (∀ y, y ∈ dom (heap w) → <[x := r0]> (heap w) !! y = heap w !! y)
        as Hold.
      { intros y Hy. apply lookup_insert_ne, not_eq_sym.
        by apply fresh_not_in. }
      destruct (IH Hnd (<[f0 := x]> fields)
                  (set_heap (<[x := r0]> (heap w)) w))
        as (fields' & hp & Hrun & Hsub & Hdom & Hlook).
      { intros f l Hin. simpl. rewrite dom_insert.
        apply elem_of_union. right. by eapply Hitems'. }
      { intros f y. simpl. rewrite dom_insert. intros Hy.
        destruct (decide (f0 = f)) as [->|Hne].
        - rewrite lookup_insert_eq in Hy. injection Hy as <-.
          apply elem_of_union. left. by apply elem_of_singleton.
        - rewrite lookup_insert_ne in Hy by done.
          apply elem_of_union. right. by eapply Hfields. }
      exists fields', hp. simpl in *.
      split; [exact Hrun|]. split.
      { etrans; [|exact Hsub]. apply insert_subseteq.
        apply not_elem_of_dom. apply is_fresh. }
      split; [done|]. intros f. rewrite Hlook.
      destruct (decide (f0 = f)) as [<-|Hne].
      * rewrite Hnone, !lookup_insert_eq. simpl.
        by rewrite lookup_insert_eq, Hr0, Hm.
      * rewrite !(lookup_insert_ne _ f0 f) by done.
        destruct (list_to_map items !! f) as [l|] eqn:Hl.
        -- apply elem_of_list_to_map_2 in Hl.
           rewrite (Hold l) by by eapply Hitems'.
           destruct (heap w !! l) as [r|]; [|done].
           destruct (matches h r); [done|].
           destruct (fields !! f) as [y|] eqn:Hy; simpl; [|done].
           apply Hold. by eapply Hfields.
        -- destruct (fields !! f) as [y|] eqn:Hy; simpl; [|done].
           apply Hold. by eapply Hfields.
    + destruct (IH Hnd fields w Hitems' Hfields)
        as (fields' & hp & Hrun & Hsub & Hdom & Hlook).
      exists fields', hp. repeat split; try done.
      intros f. rewrite Hlook.
      destruct (decide (f0 = f)) as [<-|Hne].
      * by rewrite Hnone, lookup_insert_eq, Hr0, Hm.
      * by rewrite lookup_insert_ne.
Qed.

Lemma lookup_from_kv_mtd_with_comments h c e w tb :
  wf w → table_of w e c = Some tb →
  ∃ fields w',
    lookup_from_kv_mtd str2dict (FidDict h) c e true w = (Ok fields, w') ∧
    ∀ f, deref w' fields !! f =
           r ← stored w e c f; if matches h r then Some r else None.
Proof.
  intros Hwf Htb. unfold table_of in Htb.
  destruct (tables (self w) !! e) as [t|] eqn:Ht; simpl in Htb; [|done].
  destruct (select_result h (map_to_list tb) (NoDup_fst_map_to_list _) ∅ w)
    as (fields & hp & Hrun & Hsub & Hdom & Hlook).
  { intros f l Hin%elem_of_map_to_list. eapply Hwf; eauto. }
  { intros f y. by rewrite lookup_empty. }
  exists fields, (set_heap hp w). split.
  - unfold lookup_from_kv_mtd. munfold. simpl.
    rewrite Ht. simpl. rewrite Htb. simpl. by rewrite Hrun.
  - intros f. unfold deref, stored. rewrite lookup_omap. simpl.
    rewrite Hlook, list_to_map_to_list, lookup_empty, Ht. simpl.
    rewrite Htb. simpl.
    destruct (tb !! f) as [l|]; simpl; [|done].
    destruct (heap w !! l) as [r|]; simpl; [|done].
    by destruct (matches h r).
Qed.

(** ** The decorator *)

Lemma init_before_ready {A} (m : M A) w :
  initialized (self w) = Some true → init_before hook m w = m w.
Proof. intros H. unfold init_before. by rewrite H. Qed.

Lemma init_before_unset {A} (m : M A) w :
  initialized (self w) = None →
  init_before hook m w = (Raise AttributeError, w).
Proof. intros H. unfold init_before. by rewrite H. Qed.

Lemma init_before_lazy {A} (m : M A) w :
  initialized (self w) = Some false →
  init_before hook m w =
    match hook w with
    | (Ok _, w1) => m (set_init_runs (S (init_runs w)) w1)
    | (Raise e, w1) => (Raise e, set_init_runs (S (init_runs w)) w1)
    end.
Proof.
  intros H. unfold init_before, _actual_init. rewrite H. munfold.
  by destruct (hook w) as [[[]|e] w1].
Qed.

Lemma wrap_snd {A B} (m : M A) (f : A → B) w :
  ((x ← m; mret (f x)) w).2 = (m w).2.
Proof. munfold. by destruct (m w) as [[a|e] w']. Qed.

End Lookups.

Section BaseClass.

(** The store of the source: [_actual_init] is [pass]. *)

Variable str2dict : string → result record.

Implicit Types (w : world) (l : loc) (r h : record) (c e : string).

Lemma init_before_pass {A} (m : M A) w b :
  initialized (self w) = Some b → init_before pass m w = m (entered b w).
Proof.
  intros H. destruct b.
  - by apply init_before_ready.
  - by rewrite init_before_lazy.
Qed.

Lemma frame_entered b w : frame w (entered b w).
Proof. destruct b; [apply frame_refl|apply frame_set_init_runs]. Qed.

Lemma init_before_pass_frame {A} (m : M A) :
  (∀ w, frame w (m w).2) → ∀ w, frame w (init_before pass m w).2.
Proof.
  intros Hm w. destruct (initialized (self w)) as [b|] eqn:Hb.
  - rewrite (init_before_pass _ _ _ Hb).
    eapply frame_trans; [apply frame_entered|apply Hm].
  - rewrite init_before_unset by done. apply frame_refl.
Qed.

Lemma get_def_frame fid c e ic w : frame w (_get_def pass fid c e ic w).2.
Proof. apply init_before_pass_frame. intros w'. apply get_def_mtd_frame. Qed.

Lemma lookup_from_kv_frame fid c e ic w :
  frame w (_lookup_from_kv str2dict pass fid c e ic w).2.
Proof.
  apply init_before_pass_frame. intros w'. apply lookup_from_kv_mtd_frame.
Qed.

Lemma lookup_frame fid c e ic w :
  frame w (_lookup str2dict pass fid c e ic w).2.
Proof.
  apply init_before_pass_frame. clear w. intros w.
  unfold lookup_mtd, try_except_else.
  assert (∀ fid', frame w
            ((fields ← _lookup_from_kv str2dict pass fid' c e ic;
              mret (RFields fields)) w).2) as Hkv.
  { intros fid'. rewrite wrap_snd. apply lookup_from_kv_frame. }
  destruct fid as [s|h]; [|apply Hkv].
  munfold. simpl. destruct (parse_GRIBstr_todict str2dict s) as [h|ex].
  - apply Hkv.
  - destruct (decide (ex = SyntaxError)); [|apply frame_refl].
    pose proof (wrap_snd (_get_def pass (FidStr s) c e ic) RDef w) as Hw.
    munfold. rewrite Hw. apply get_def_frame.
Qed.

Lemma after_frame call w : frame w (after str2dict pass call w).
Proof.
  unfold after. destruct call as [fid c e ic|fid c e ic|fid c e ic]; simpl.
  - apply lookup_frame.
  - rewrite wrap_snd. apply get_def_frame.
  - rewrite wrap_snd. apply lookup_from_kv_frame.
Qed.

Lemma table_of_stored w e c tb f :
  table_of w e c = Some tb → stored w e c f = tb !! f ≫= (heap w !!.).
Proof.
  unfold table_of, stored. intros H.
  destruct (tables (self w) !! e) as [t|]; simpl in *; [|done].
  by rewrite H.
Qed.

Lemma table_of_entered b w e c : table_of (entered b w) e c = table_of w e c.
Proof. by destruct b. Qed.

Lemma get_def_run name c e ic b w r :
  initialized (self w) = Some b →
  stored w e c name = Some r →
  _get_def pass (FidStr name) c e ic w =
    (Ok (fresh (dom (heap w))),
     set_heap (<[fresh (dom (heap w)) := handed_out ic r]> (heap w))
       (entered b w)).
Proof.
  intros Hb Hr. unfold _get_def. rewrite (init_before_pass _ _ _ Hb).
  unfold stored in Hr.
  destruct (tables (self w) !! e) as [t|] eqn:Ht; simpl in Hr; [|done].
  destruct (t !! c) as [tb|] eqn:Htb; simpl in Hr; [|done].
  destruct (tb !! name) as [l|] eqn:Hl; simpl in Hr; [|done].
  rewrite (get_def_mtd_present name c e ic (entered b w) t tb l r);
    by destruct b.
Qed.

Lemma get_def_missing name c e ic b w :
  initialized (self w) = Some b →
  (table_of w e c ≫= (.!! name)) = None →
  _get_def pass (FidStr name) c e ic w = (Raise KeyError, entered b w).
Proof.
  intros Hb Hnone. unfold _get_def. rewrite (init_before_pass _ _ _ Hb).
  unfold get_def_mtd, table_of in *. munfold. simpl.
  replace (self (entered b w)) with (self w) by by destruct b.
  destruct (tables (self w) !! e) as [t|]; simpl in *; [|done].
  destruct (t !! c) as [tb|]; simpl in *; [|done].
  by rewrite Hnone.
Qed.

Lemma lookup_from_kv_missing h c e ic b w :
  initialized (self w) = Some b →
  table_of w e c = None →
  _lookup_from_kv str2dict pass (FidDict h) c e ic w
    = (Raise KeyError, entered b w).
Proof.
  intros Hb Hnone. unfold _lookup_from_kv.
  rewrite (init_before_pass _ _ _ Hb).
  unfold lookup_from_kv_mtd, table_of in *. munfold. simpl.
  replace (self (entered b w)) with (self w) by by destruct b.
  destruct (tables (self w) !! e) as [t|]; simpl in *; [|done].
  by rewrite Hnone.
Qed.

Lemma lookup_from_kv_empty h c e ic b w :
  initialized (self w) = Some b →
  table_of w e c = Some ∅ →
  _lookup_from_kv str2dict pass (FidDict h) c e ic w = (Ok ∅, entered b w).
Proof.
  intros Hb Hnone. unfold _lookup_from_kv.
  rewrite (init_before_pass _ _ _ Hb).
  unfold lookup_from_kv_mtd, table_of in *. munfold. simpl.
  replace (self (entered b w)) with (self w) by by destruct b.
  destruct (tables (self w) !! e) as [t|]; simpl in *; [|done].
  rewrite Hnone. rewrite map_to_list_empty. simpl.
  rewrite map_to_list_empty. by destruct ic.
Qed.

(** With the comments kept, the reverse lookup returns the fields that
    pass the test, each with a copy of its record. *)
Lemma reverse_lookup_with_comments h c e b w tb :
  wf w → initialized (self w) = Some b → table_of w e c = Some tb →
  ∃ fields,
    seen_fields (_lookup_from_kv str2dict pass (FidDict h) c e true w)
      = Ok fields ∧
    ∀ f, f ∈ dom fields ↔
         ∃ r, stored w e c f = Some r ∧
              ∀ k v, h !! k = Some v →
                     ∃ x, r !! k = Some x ∧ py_eq x v = true.
Proof.
  intros Hwf Hb Htb. unfold _lookup_from_kv, seen_fields.
  rewrite (init_before_pass _ _ _ Hb).
  destruct (lookup_from_kv_mtd_with_comments str2dict h c e (entered b w) tb)
    as (fields & w' & -> & Hlook).
  { eapply frame_wf; [done|apply frame_entered]. }
  { by rewrite table_of_entered. }
  simpl. eexists. split; [done|]. intros f.
  rewrite elem_of_dom, Hlook.
  rewrite (frame_stored w _ e c f Hwf (frame_entered b w)).
  destruct (stored w e c f) as [r|]; simpl.
  - destruct (matches h r) eqn:Hm.
    + split; [|by eauto]. intros _. exists r. split; [done|].
      by apply matches_spec.
    + split; [by intros [? ?]|]. intros (r' & [= <-] & Hall).
      apply matches_spec in Hall. congruence.
  - split; [by intros [? ?]|]. by intros (r' & ? & _).
Qed.

End BaseClass.

(** C3 (as the code runs it): on the table of the reverse lookup example
    ([foo] with [key = 3] and [x = 1], [bar] with [key = 4], no comments),
    the lookup of [{key: 3}] with [include_comments] false, its default,
    raises a KeyError instead of returning [foo], and so does the lookup of
    the empty identifier set; with [include_comments] true the same lookup
    returns exactly [foo] with its record. The test on the fields is as the
    claim says ([reverse_lookup_with_comments]); the loop that drops the
    comments pops [#comment] from records that have none. *)
Theorem C3_reverse_lookup_raises_on_example str2dict :
  stored Examples.w_demo "grib2" "demo" "foo"
    = Some {[ Some "key" := VInt 3; Some "x" := VInt 1 ]}
  ∧ stored Examples.w_demo "grib2" "demo" "bar" = Some {[ Some "key" := VInt 4 ]}
  ∧ seen_fields (_lookup_from_kv str2dict pass
                   (FidDict {[ Some "key" := VInt 3 ]}) "demo" "grib2" false
                   Examples.w_demo) = Raise KeyError
  ∧ seen_fields (_lookup_from_kv str2dict pass
                   (FidDict ∅) "demo" "grib2" false Examples.w_demo)
      = Raise KeyError
  ∧ seen_fields (_lookup_from_kv str2dict pass
                   (FidDict {[ Some "key" := VInt 3 ]}) "demo" "grib2" true
                   Examples.w_demo)
      = Ok {[ "foo" := {[ Some "key" := VInt 3; Some "x" := VInt 1 ]} ]}.
Proof. repeat split; vm_compute; reflexivity. Qed.

(** C4 (as the code runs it): in a table where [t] has a comment and [u] has
    none, the direct lookup with [include_comments] false returns [t]
    without its comment and [u] as it is, and keeps the comment with
    [include_comments] true; the reverse lookup with [include_comments]
    false returns [t] without its comment, but raises a KeyError as soon as
    a matched record, here [u], has no comment. *)
Theorem C4_reverse_lookup_needs_a_comment str2dict :
  seen_record (_get_def pass (FidStr "t") "commented" "grib2" false
                 Examples.w_commented)
    = Ok (Some {[ Some "discipline" := VInt 0 ]})
  ∧ seen_record (_get_def pass (FidStr "u") "commented" "grib2" false
                   Examples.w_commented)
      = Ok (Some {[ Some "discipline" := VInt 2 ]})
  ∧ seen_record (_get_def pass (FidStr "t") "commented" "grib2" true
                   Examples.w_commented)
      = Ok (Some {[ Some "discipline" := VInt 0;
                    comment_key := VStr "air temperature" ]})
  ∧ seen_fields (_lookup_from_kv str2dict pass
                   (FidDict {[ Some "discipline" := VInt 0 ]})
                   "commented" "grib2" false Examples.w_commented)
      = Ok {[ "t" := {[ Some "discipline" := VInt 0 ]} ]}
  ∧ seen_fields (_lookup_from_kv str2dict pass
                   (FidDict {[ Some "discipline" := VInt 2 ]})
                   "commented" "grib2" false Examples.w_commented)
      = Raise KeyError
  ∧ seen_fields (_lookup_from_kv str2dict pass
                   (FidDict {[ Some "discipline" := VInt 2 ]})
                   "commented" "grib2" true Examples.w_commented)
      = Ok {[ "u" := {[ Some "discipline" := VInt 2 ]} ]}.
Proof. repeat split; vm_compute; reflexivity. Qed.

(** C5 (amended): on a store whose flag is set, the reverse lookup in a
    registered table that is empty returns an empty dict; in a table that was
    never registered it raises a KeyError, as the direct lookup does in both
    cases. *)
Theorem C5_empty_or_missing_table str2dict h name c e ic b w :
  initialized (self w) = Some b →
  (table_of w e c = Some ∅ →
     (_lookup_from_kv str2dict pass (FidDict h) c e ic w).1 = Ok ∅)
  ∧ (table_of w e c = None →
     (_lookup_from_kv str2dict pass (FidDict h) c e ic w).1 = Raise KeyError)
  ∧ (table_of w e c = Some ∅ ∨ table_of w e c = None →
     (_get_def pass (FidStr name) c e ic w).1 = Raise KeyError).
Proof.
  intros Hb. split; [|split].
  - intros Ht. by rewrite (lookup_from_kv_empty _ _ _ _ _ _ _ Hb Ht).
  - intros Ht. by rewrite (lookup_from_kv_missing _ _ _ _ _ _ _ Hb Ht).
  - intros Ht. rewrite (get_def_missing name c e ic b w Hb); [done|].
    by destruct Ht as [-> | ->].
Qed.

Lemma C5_witness :
  (_lookup_from_kv Examples.str2dict pass (FidDict ∅) "empty" "grib2" false
     Examples.w_concepts).1 = Ok ∅
  ∧ (_get_def pass (FidStr "t") "empty" "grib2" false Examples.w_concepts).1
      = Raise KeyError.
Proof.
  destruct (C5_empty_or_missing_table Examples.str2dict ∅ "t" "empty" "grib2"
              false false Examples.w_concepts) as (H1 & _ & H3).
  - reflexivity.
  - split.
    + apply H1. reflexivity.
    + apply H3. left. reflexivity.
Defined.

(** C5 (as stated) fails: the reverse lookup in a table that was never
    registered raises a KeyError; it returns no empty dict. *)
Lemma C5_counterexample :
  table_of Examples.w_lazy "grib2" "never" = None
  ∧ (_lookup_from_kv Examples.str2dict pass (FidDict ∅) "never" "grib2" false
       Examples.w_lazy).1 = Raise KeyError
  ∧ (_lookup_from_kv Examples.str2dict pass (FidDict ∅) "never" "grib2" false
       Examples.w_lazy).1 ≠ Ok ∅.
Proof. repeat split; try (vm_compute; reflexivity). by vm_compute. Qed.

(** C6 (amended): [_lookup] first parses a string [fid] as an identifier set. When the
    parse raises a syntax failure, the lookup is the direct lookup of the
    string; when it returns an identifier set, or when [fid] is one already,
    the lookup is the reverse lookup of that set; and a lookup that answers
    with the record of a direct lookup is one whose parse raised a syntax
    failure. Any other exception of the parser is raised to the caller. *)
Theorem C6_lookup_dispatch str2dict hook c e ic w :
  (∀ s, str2dict s = Raise SyntaxError →
        _lookup str2dict hook (FidStr s) c e ic w =
          init_before hook
            (l ← _get_def hook (FidStr s) c e ic; mret (RDef l)) w)
  ∧ (∀ s h, str2dict s = Ok h →
        _lookup str2dict hook (FidStr s) c e ic w =
          init_before hook
            (fields ← _lookup_from_kv str2dict hook (FidDict h) c e ic;
             mret (RFields fields)) w)
  ∧ (∀ h, _lookup str2dict hook (FidDict h) c e ic w =
          init_before hook
            (fields ← _lookup_from_kv str2dict hook (FidDict h) c e ic;
             mret (RFields fields)) w)
  ∧ (∀ s l w', _lookup str2dict hook (FidStr s) c e ic w = (Ok (RDef l), w') →
               str2dict s = Raise SyntaxError)
  ∧ (∀ s ex, str2dict s = Raise ex → ex ≠ SyntaxError →
             _lookup str2dict hook (FidStr s) c e ic w =
               init_before hook (raise ex) w).
Proof.
  assert (∀ s w1,
    lookup_mtd str2dict hook (FidStr s) c e ic w1 =
      match str2dict s with
      | Ok h =>
          (fields ← _lookup_from_kv str2dict hook (FidDict h) c e ic;
           mret (RFields fields)) w1
      | Raise ex =>
          if decide (ex = SyntaxError)
          then (l ← _get_def hook (FidStr s) c e ic; mret (RDef l)) w1
          else (Raise ex, w1)
      end) as Hmtd.
  { intros s w1. unfold lookup_mtd, try_except_else, parse_GRIBstr_todict.
    munfold. by destruct (str2dict s). }
  assert (∀ s, _lookup str2dict hook (FidStr s) c e ic w =
            init_before hook (λ w1,
              match str2dict s with
              | Ok h =>
                  (fields ← _lookup_from_kv str2dict hook (FidDict h) c e ic;
                   mret (RFields fields)) w1
              | Raise ex =>
                  if decide (ex = SyntaxError)
                  then (l ← _get_def hook (FidStr s) c e ic; mret (RDef l)) w1
                  else (Raise ex, w1)
              end) w) as Hlookup.
  { intros s. unfold _lookup, init_before.
    destruct (initialized (self w)) as [[]|]; [|munfold|done].
    - apply Hmtd.
    - destruct (_actual_init hook w) as [[[]|ex] w1]; [apply Hmtd|done]. }
  split; [|split; [|split; [|split]]].
  - intros s Hs. rewrite Hlookup, Hs. reflexivity.
  - intros s h Hs. by rewrite Hlookup, Hs.
  - intros h. reflexivity.
  - intros s l w' Hrun. rewrite Hlookup in Hrun.
    destruct (str2dict s) as [h|ex] eqn:Hs.
    + exfalso. unfold init_before in Hrun. munfold.
      destruct (initialized (self w)) as [[]|]; [| |done].
      * destruct (_lookup_from_kv str2dict hook (FidDict h) c e ic w)
          as [[?|?] ?]; done.
      * destruct (_actual_init hook w) as [[[]|?] w1]; [|done].
        destruct (_lookup_from_kv str2dict hook (FidDict h) c e ic w1)
          as [[?|?] ?]; done.
    + destruct (decide (ex = SyntaxError)) as [->|Hne]; [done|].
      exfalso. unfold init_before in Hrun. munfold.
      destruct (initialized (self w)) as [[]|]; [done| |done].
      by destruct (_actual_init hook w) as [[[]|?] w1].
  - intros s ex Hs Hne. rewrite Hlookup, Hs. cbv beta iota.
    destruct (decide (ex = SyntaxError)); done.
Qed.

Lemma C6_witness :
  _lookup Examples.str2dict pass (FidStr "t") "commented" "grib2" false
    Examples.w_commented =
  init_before pass
    (l ← _get_def pass (FidStr "t") "commented" "grib2" false; mret (RDef l))
    Examples.w_commented
  ∧ _lookup Examples.str2dict pass (FidStr "discipline=0") "commented" "grib2"
      false Examples.w_commented =
    init_before pass
      (fields ← _lookup_from_kv Examples.str2dict pass
                  (FidDict {[ Some "discipline" := VInt 0 ]}) "commented"
                  "grib2" false;
       mret (RFields fields)) Examples.w_commented.
Proof.
  destruct (C6_lookup_dispatch Examples.str2dict pass "commented" "grib2" false
              Examples.w_commented) as (Hdirect & Hreverse & _).
  split.
  - apply Hdirect. reflexivity.
  - apply Hreverse. vm_compute. reflexivity.
Defined.

(** C6 (as stated) fails: a string whose parse raises an exception that is
    not a syntax failure is dispatched neither way. With a parser that
    raises an IndexError on [key=3,x], the lookup of that string raises the
    IndexError, whereas the direct lookup of the string raises a KeyError
    and the reverse lookup, with the comments kept, returns for every
    identifier set. *)
Lemma C6_counterexample :
  Examples.str2dict_indexing "key=3,x" = Raise IndexError
  ∧ (_lookup Examples.str2dict_indexing pass (FidStr "key=3,x") "demo" "grib2"
       true Examples.w_demo).1 = Raise IndexError
  ∧ (_get_def pass (FidStr "key=3,x") "demo" "grib2" true Examples.w_demo).1
    = Raise KeyError
  ∧ (∀ h, ∃ fields,
       seen_fields
         (_lookup_from_kv Examples.str2dict_indexing pass (FidDict h) "demo"
            "grib2" true Examples.w_demo) = Ok fields).
Proof.
  split; [vm_compute; reflexivity|].
  split; [vm_compute; reflexivity|].
  split; [vm_compute; reflexivity|].
  intros h.
  destruct (reverse_lookup_with_comments Examples.str2dict_indexing h "demo"
              "grib2" false Examples.w_demo
              {[ "foo" := 1%positive; "bar" := 2%positive ]})
    as (fields & Hrun & _).
  - apply wf_check_sound. vm_compute. reflexivity.
  - vm_compute. reflexivity.
  - vm_compute. reflexivity.
  - by exists fields.
Qed.

(** C8: with the initialiser of the base class, no lookup changes the store:
    after any call, the tables are the same and every record object that
    existed holds the items it held. The direct lookup of a present field
    returns a new object, which no table refers to, holding the items of the
    stored record (without the comment unless asked for); whatever the
    caller then writes into it, the store shows the records it showed. *)
Theorem C8_lookups_hand_out_copies str2dict :
  (∀ call w,
     frame w (after str2dict pass call w) ∧
     (wf w → wf (after str2dict pass call w) ∧
             ∀ e c f, stored (after str2dict pass call w) e c f
                      = stored w e c f))
  ∧ (∀ name c e ic b w r,
       wf w → initialized (self w) = Some b → stored w e c name = Some r →
       ∃ l w',
         _get_def pass (FidStr name) c e ic w = (Ok l, w') ∧
         (l ∉ dom (heap w)) ∧
         heap w' !! l = Some (handed_out ic r) ∧
         ∀ r' e1 c1 f1, stored (mutate l r' w') e1 c1 f1 = stored w e1 c1 f1).
Proof.
  split.
  - intros call w. split; [apply after_frame|]. intros Hwf. split.
    + eapply frame_wf; [done|apply after_frame].
    + intros e c f. apply frame_stored; [done|apply after_frame].
  - intros name c e ic b w r Hwf Hb Hr.
    eexists _, _. split; [by apply get_def_run|].
    split; [apply is_fresh|]. split; [simpl; apply lookup_insert_eq|].
    intros r' e1 c1 f1. apply frame_stored; [done|].
    unfold frame, mutate. simpl.
    split; [by destruct b|]. split; [by destruct b|].
    intros y Hy. rewrite !lookup_insert_ne
      by (apply not_eq_sym; by apply fresh_not_in).
    by destruct b.
Qed.

Lemma C8_witness :
  ∃ l w',
    _get_def pass (FidStr "foo") "demo" "grib2" false Examples.w_demo = (Ok l, w')
    ∧ stored (mutate l ∅ w') "grib2" "demo" "foo"
        = stored Examples.w_demo "grib2" "demo" "foo".
Proof.
  destruct (proj2 (C8_lookups_hand_out_copies Examples.str2dict)
              "foo" "demo" "grib2" false false Examples.w_demo
              {[ Some "key" := VInt 3; Some "x" := VInt 1 ]})
    as (l & w' & Hrun & _ & _ & Hmut).
  - apply wf_check_sound. vm_compute. reflexivity.
  - reflexivity.
  - vm_compute. reflexivity.
  - exists l, w'. split; [exact Hrun|apply Hmut].
Defined.

Section InitOnce.

(** A store whose initialiser sets the flag, as a subclass that loads the
    default files is meant to. *)

Variable str2dict : string → result record.
Variable hook : M unit.
Hypothesis hook_sets_flag : ∀ w, initialized (self (hook w).2) = Some true.

Implicit Types (w : world) (c e : string).

Lemma quiet_get_def_mtd fid c e ic : quiet (get_def_mtd fid c e ic).
Proof.
  intros w _. destruct (get_def_mtd_frame fid c e ic w) as ((_ & Hs & _) & Hi).
  by split.
Qed.

Lemma quiet_lookup_from_kv_mtd fid c e ic :
  quiet (lookup_from_kv_mtd str2dict fid c e ic).
Proof.
  intros w _.
  destruct (lookup_from_kv_mtd_frame str2dict fid c e ic w)
    as ((_ & Hs & _) & Hi).
  by split.
Qed.

Lemma quiet_decorated {A} (m : M A) : quiet m → quiet (init_before hook m).
Proof. intros Hm w Hw. rewrite init_before_ready by done. by apply Hm. Qed.

Lemma quiet_wrap {A B} (m : M A) (f : A → B) :
  quiet m → quiet (x ← m; mret (f x)).
Proof. intros Hm w Hw. rewrite wrap_snd. by apply Hm. Qed.

Lemma quiet_lookup_mtd fid c e ic :
  quiet (lookup_mtd str2dict hook fid c e ic).
Proof.
  assert (∀ fid', quiet (fields ← _lookup_from_kv str2dict hook fid' c e ic;
                         mret (RFields fields))) as Hkv.
  { intros fid'. apply quiet_wrap, quiet_decorated,
      quiet_lookup_from_kv_mtd. }
  assert (∀ fid', quiet (l ← _get_def hook fid' c e ic; mret (RDef l)))
    as Hdef.
  { intros fid'. apply quiet_wrap, quiet_decorated, quiet_get_def_mtd. }
  intros w Hw. unfold lookup_mtd, try_except_else.
  destruct fid as [s|h]; [|by apply Hkv].
  unfold parse_GRIBstr_todict.
  replace ((h ← lift (str2dict s); mret (FidDict h)) w)
    with (match str2dict s with
          | Ok h => (Ok (FidDict h), w)
          | Raise ex => (Raise ex, w)
          end) by (munfold; by destruct (str2dict s)).
  destruct (str2dict s) as [h|ex]; [by apply Hkv|].
  destruct (decide (ex = SyntaxError)); [by apply Hdef|done].
Qed.

(** A decorated method runs the initialiser when the flag is false, and
    only then; the flag is true afterwards. *)
Lemma init_before_counts {A} (m : M A) w b :
  quiet m →
  initialized (self w) = Some b →
  initialized (self (init_before hook m w).2) = Some true ∧
  init_runs (init_before hook m w).2 =
    if b then init_runs w else S (init_runs w).
Proof.
  intros Hm Hb. destruct b.
  - rewrite init_before_ready by done.
    destruct (Hm w Hb) as [-> ->]. by split.
  - rewrite init_before_lazy by done.
    pose proof (hook_sets_flag w) as Hflag.
    destruct (hook w) as [[[]|ex] w1]; simpl in *; [|by split].
    destruct (Hm (set_init_runs (S (init_runs w)) w1) Hflag) as [-> ->].
    by split.
Qed.

Lemma after_counts call w b :
  initialized (self w) = Some b →
  initialized (self (after str2dict hook call w)) = Some true ∧
  init_runs (after str2dict hook call w) =
    if b then init_runs w else S (init_runs w).
Proof.
  intros Hb. unfold after.
  destruct call as [fid c e ic|fid c e ic|fid c e ic]; simpl.
  - apply init_before_counts; [apply quiet_lookup_mtd|done].
  - rewrite wrap_snd.
    apply init_before_counts; [apply quiet_get_def_mtd|done].
  - rewrite wrap_snd.
    apply init_before_counts; [apply quiet_lookup_from_kv_mtd|done].
Qed.

Lemma after_all_ready calls :
  ∀ w, initialized (self w) = Some true →
       init_runs (after_all str2dict hook calls w) = init_runs w.
Proof.
  induction calls as [|call calls IH]; intros w Hw; [done|].
  simpl. destruct (after_counts call w true Hw) as [Hflag Hruns].
  rewrite <- Hruns. by apply IH.
Qed.

(** The first call on a lazy store answers on the initialised store. *)
Lemma first_call_initialises call w w1 :
  initialized (self w) = Some false →
  hook w = (Ok tt, w1) →
  perform str2dict hook call w =
    perform str2dict hook call (set_init_runs (S (init_runs w)) w1).
Proof.
  intros Hw Hhook.
  pose proof (hook_sets_flag w) as Hflag. rewrite Hhook in Hflag.
  assert (∀ A (m : M A),
            init_before hook m w =
              init_before hook m (set_init_runs (S (init_runs w)) w1)) as Hdec.
  { intros A m. rewrite init_before_lazy, Hhook by done.
    by rewrite init_before_ready. }
  destruct call as [fid c e ic|fid c e ic|fid c e ic]; simpl.
  - apply Hdec.
  - unfold _get_def. munfold. by rewrite Hdec.
  - unfold _lookup_from_kv. munfold. by rewrite Hdec.
Qed.

Lemma init_lazy concepts w :
  initialized (self (__init__ hook false concepts w).2) = Some false ∧
  init_runs (__init__ hook false concepts w).2 = init_runs w.
Proof. done. Qed.

Lemma init_eager concepts w :
  initialized (self (__init__ hook true concepts w).2) = Some true ∧
  init_runs (__init__ hook true concepts w).2 = S (init_runs w).
Proof.
  unfold __init__, _actual_init. munfold. simpl.
  match goal with |- context [hook ?w1] =>
    pose proof (hook_sets_flag w1) as Hflag; destruct (hook w1) as [r w2]
  end.
  by split.
Qed.

End InitOnce.

(** C7 (amended): the decorator calls the initialiser when the flag is false
    and never sets the flag itself. When the initialiser sets the flag, as an
    overriding one is meant to, a store built lazily is initialised by its
    first lookup, which answers on the initialised store, and by no later
    lookup; a store built eagerly is initialised by its constructor and by
    no lookup. *)
Theorem C7_initialised_once str2dict hook :
  (∀ w, initialized (self (hook w).2) = Some true) →
  ∀ concepts w0 call calls,
    let lazy := (__init__ hook false concepts w0).2 in
    let eager := (__init__ hook true concepts w0).2 in
    init_runs lazy = init_runs w0
    ∧ init_runs (after_all str2dict hook (call :: calls) lazy)
        = S (init_runs w0)
    ∧ (∀ w1, hook lazy = (Ok tt, w1) →
             perform str2dict hook call lazy =
               perform str2dict hook call
                 (set_init_runs (S (init_runs w0)) w1))
    ∧ init_runs eager = S (init_runs w0)
    ∧ init_runs (after_all str2dict hook calls eager) = S (init_runs w0).
Proof.
  intros Hhook concepts w0 call calls lazy eager.
  destruct (init_lazy hook concepts w0) as [Hlf Hlr].
  destruct (init_eager hook Hhook concepts w0) as [Hef Her].
  fold lazy in Hlf, Hlr. fold eager in Hef, Her.
  split; [done|]. split; [|split; [|split; [done|]]].
  - simpl. destruct (after_counts str2dict hook Hhook call lazy false Hlf)
      as [Hflag Hruns].
    rewrite (after_all_ready str2dict hook Hhook calls _ Hflag).
    by rewrite Hruns, Hlr.
  - intros w1 Hw1. rewrite <- Hlr.
    by apply first_call_initialises.
  - by rewrite (after_all_ready str2dict hook Hhook calls _ Hef).
Qed.

Lemma C7_witness :
  init_runs
    (after_all Examples.str2dict Examples.mark_initialized
       [GetDef (FidStr "t") "c" "grib2" false;
        Lookup (FidStr "t") "c" "grib2" false]
       (__init__ Examples.mark_initialized false [] Examples.w_blank).2) = 1%nat.
Proof.
  exact (proj1 (proj2
    (C7_initialised_once Examples.str2dict Examples.mark_initialized
       (λ w, eq_refl) [] Examples.w_blank
       (GetDef (FidStr "t") "c" "grib2" false)
       [Lookup (FidStr "t") "c" "grib2" false]))).
Defined.

(** C7 (as stated) fails on the store of the source, whose initialiser is
    [pass]: built lazily, it runs the initialiser at every decorated call
    (twice in one [_lookup], which calls [_get_def]), and its flag stays
    false. *)
Lemma C7_counterexample :
  init_runs (after_all Examples.str2dict pass
               [GetDef (FidStr "t") "commented" "grib2" false]
               Examples.w_commented) = 1%nat
  ∧ init_runs (after_all Examples.str2dict pass
                 [GetDef (FidStr "t") "commented" "grib2" false;
                  GetDef (FidStr "t") "commented" "grib2" false]
                 Examples.w_commented) = 2%nat
  ∧ init_runs (after_all Examples.str2dict pass
                 [Lookup (FidStr "t") "commented" "grib2" false]
                 Examples.w_commented) = 2%nat
  ∧ initialized (self (after_all Examples.str2dict pass
                         [GetDef (FidStr "t") "commented" "grib2" false]
                         Examples.w_commented)) = Some false.
Proof. repeat split; vm_compute; reflexivity. Qed.

(** X1: with [include_comments] true, on a store of the base class whose
    flag is set, the reverse lookup in a registered table returns, and the
    fields it returns are exactly those whose record has every key of the
    identifier set with an equal value. *)
Theorem X1_reverse_lookup_keeping_comments str2dict h c e b w tb :
  wf w → initialized (self w) = Some b → table_of w e c = Some tb →
  ∃ fields,
    seen_fields (_lookup_from_kv str2dict pass (FidDict h) c e true w)
      = Ok fields ∧
    ∀ f, f ∈ dom fields ↔
         ∃ r, stored w e c f = Some r ∧
              ∀ k v, h !! k = Some v → ∃ x, r !! k = Some x ∧ py_eq x v = true.
Proof. apply reverse_lookup_with_comments. Qed.

Lemma X1_witness :
  ∃ fields,
    seen_fields (_lookup_from_kv Examples.str2dict pass
                   (FidDict {[ Some "key" := VInt 3 ]}) "demo" "grib2" true
                   Examples.w_demo) = Ok fields.
Proof.
  destruct (X1_reverse_lookup_keeping_comments Examples.str2dict
              {[ Some "key" := VInt 3 ]} "demo" "grib2" false Examples.w_demo
              {[ "foo" := 1%positive; "bar" := 2%positive ]})
    as (fields & Hrun & _).
  - apply wf_check_sound. vm_compute. reflexivity.
  - reflexivity.
  - vm_compute. reflexivity.
  - exists fields. exact Hrun.
Defined.

(** X2: a store of the base class built with [actual_init] true never gets
    its [initialized] attribute, so each of its lookups raises an
    AttributeError. *)
Theorem X2_eager_base_store_raises str2dict call concepts w0 :
  (perform str2dict pass call (__init__ pass true concepts w0).2).1
    = Raise AttributeError.
Proof. by destruct call. Qed.

(** X3: a file in which no line declares a field parses to an empty
    fragment. *)
Theorem X3_no_declaration_no_field text :
  (find_fields (unfold_lines text)).1 = [] → parse text = Ok ∅.
Proof.
  intros Hidx. unfold parse, parse_lines.
  pose proof (find_fields_dico (unfold_lines text)) as Hdico.
  destruct (find_fields (unfold_lines text)) as [indexes dico].
  simpl in *. subst indexes. simpl. f_equal.
  apply map_eq. intros f. by rewrite Hdico, lookup_empty.
Qed.

Lemma X3_witness : parse "# only a comment" = Ok ∅.
Proof. apply X3_no_declaration_no_field. reflexivity. Defined.

(** X4: registering the same file a second time changes no record that the
    store shows. *)
Theorem X4_read_twice filename ge g t text frag w :
  wf w →
  infer_edition filename ge = Some g →
  tables (self w) !! g = Some t →
  files w !! filename = Some text →
  parse text = Ok frag →
  ∃ w1 w2,
    read filename ge w = (Ok tt, w1) ∧ read filename ge w1 = (Ok tt, w2) ∧
    ∀ e c f, stored w2 e c f = stored w1 e c f.
Proof.
  intros Hwf Hg Ht Htext Hfrag.
  destruct (read_run _ _ _ _ _ _ _ Hg Ht Htext Hfrag)
    as (refs & h' & _ & _ & _ & Hread).
  destruct (read_spec _ _ _ _ _ _ _ Hwf Hg Ht Htext Hfrag)
    as (w1 & Hread1 & Hwf1 & Hin1 & Hout1).
  assert (files w1 !! filename = Some text) as Htext1.
  { rewrite Hread in Hread1. by injection Hread1 as <-. }
  assert (∃ t1, tables (self w1) !! g = Some t1) as [t1 Ht1].
  { rewrite Hread in Hread1. injection Hread1 as <-. simpl.
    rewrite lookup_insert_eq. eauto. }
  destruct (read_spec _ _ _ _ _ _ _ Hwf1 Hg Ht1 Htext1 Hfrag)
    as (w2 & Hread2 & _ & Hin2 & Hout2).
  exists w1, w2. split; [done|]. split; [done|]. intros e c f.
  destruct (decide ((e, c) = (g, concept_of filename))) as [[= -> ->]|Hne].
  - rewrite Hin2, Hin1. by destruct (frag !! f).
  - by apply Hout2.
Qed.

Lemma X4_witness :
  ∃ w1 w2,
    read "first/grib2/merge.def" None Examples.w_lazy = (Ok tt, w1)
    ∧ read "first/grib2/merge.def" None w1 = (Ok tt, w2)
    ∧ stored w2 "grib2" "merge" "foo" = stored w1 "grib2" "merge" "foo".
Proof.
  destruct (X4_read_twice "first/grib2/merge.def" None "grib2" ∅
              Examples.text_first {[ "foo" := {[ Some "a" := VInt 1 ]} ]}
              Examples.w_lazy)
    as (w1 & w2 & H1 & H2 & H3).
  - apply wf_check_sound. vm_compute. reflexivity.
  - vm_compute. reflexivity.
  - vm_compute. reflexivity.
  - vm_compute. reflexivity.
  - vm_compute. reflexivity.
  - exists w1, w2. split; [exact H1|]. split; [exact H2|]. apply H3.
Defined.

(** X5: in the fragment parsed from a file, every attribute under a string
    key is an integer, the comment (a string) apart: no attribute that a
    line names is ever stored as a real. The float branch of the parser only
    takes the lines "number ;" that have no key, and writes under [None]. *)
Theorem X5_keyed_attributes_are_integers text d f r :
  parse text = Ok d → d !! f = Some r → keyed_ints r.
Proof.
  unfold parse, parse_lines. intros Hrun Hf.
  pose proof (find_fields_dico (unfold_lines text)) as Hdico.
  destruct (find_fields (unfold_lines text)) as [indexes dico]. simpl in *.
  eapply fill_fields_keyed_ints; [|exact Hrun|exact Hf].
  intros f0 r0 Hr0. rewrite Hdico in Hr0.
  destruct (decide (f0 ∈ indexes.*1)); [|done].
  injection Hr0 as <-. intros k v. by rewrite lookup_empty.
Qed.

Lemma X5_witness :
  (∃ z, VInt 1 = VInt z) ∨ ("other" = "#comment" ∧ ∃ s, VInt 1 = VStr s).
Proof.
  apply (X5_keyed_attributes_are_integers Examples.text_foo
           {[ "foo" := {[ Some "key" := VInt 3; Some "other" := VInt 1 ]} ]}
           "foo" {[ Some "key" := VInt 3; Some "other" := VInt 1 ]}).
  - vm_compute. reflexivity.
  - vm_compute. reflexivity.
  - vm_compute. reflexivity.
Defined.

(* ===================================================================== *)
(** * Properties of the search paths *)
(* ===================================================================== *)

Section PathsProps.

Implicit Types (env : environ) (s a b : string) (c : ascii).

Lemma append_assoc s a b : (s +:+ a) +:+ b = s +:+ (a +:+ b).
Proof.
  induction s as [|x s IH]; [done|].
  change (String x ((s +:+ a) +:+ b) = String x (s +:+ (a +:+ b))).
  by rewrite IH.
Qed.

Lemma split_nonempty c s : split c s ≠ [].
Proof.
  destruct s as [|x s]; simpl; [done|].
  destruct (Ascii.eqb x c); [done|]. by destruct (split c s).
Qed.

(** Splitting at a separator splits on each side of it. *)
Lemma split_app c a b :
  split c (a +:+ String c b) = split c a ++ split c b.
Proof.
  induction a as [|x a IH]; simpl.
  - by rewrite Ascii.eqb_refl.
  - destruct (Ascii.eqb x c); [by rewrite IH|].
    rewrite IH. pose proof (split_nonempty c a) as Hne.
    by destruct (split c a).
Qed.

(** No piece of a split holds the separator. *)
Lemma split_no_sep c s x : x ∈ split c s → has_char c x = false.
Proof.
  revert x. induction s as [|y s IH]; intros x; simpl.
  - by intros ->%list_elem_of_singleton.
  - destruct (Ascii.eqb y c) eqn:Hy.
    + intros [->|Hin]%elem_of_cons; [done|by apply IH].
    + pose proof (split_nonempty c s) as Hne.
      destruct (split c s) as [|x0 xs]; [done|].
      intros [->|Hin]%elem_of_cons.
      * simpl. rewrite Hy. apply IH. left.
      * apply IH. by right.
Qed.

Lemma paths_of_empty : paths_of EmptyString = [].
Proof. reflexivity. Qed.

Lemma paths_of_app a b :
  paths_of (a +:+ pathsep_s +:+ b) = paths_of a ++ paths_of b.
Proof.
  unfold paths_of. change (pathsep_s +:+ b) with (String pathsep b).
  by rewrite split_app, List.filter_app.
Qed.

(** The getters read the ECCODES variable first, then the GRIB one. *)
Lemma get_paths_of obj env :
  _get_paths obj env =
    paths_of (value_of env ("ECCODES_" +:+ obj +:+ "_PATH")) ++
    paths_of (value_of env ("GRIB_" +:+ obj +:+ "_PATH")).
Proof.
  unfold _get_paths, value_of. cbn [String.concat].
  apply (paths_of_app _ _).
Qed.

(** The value that a setter writes: the new path, then the value that was
    there unless it is reset. *)
Lemma paths_of_with_predefined reset env var path :
  paths_of (String.concat pathsep_s (with_predefined reset env var [path])) =
    paths_of path ++ (if reset then [] else paths_of (value_of env var)).
Proof.
  unfold with_predefined, value_of.
  destruct reset; simpl; [by rewrite app_nil_r|].
  destruct (env !! var) as [[|x v]|]; simpl;
    [by rewrite app_nil_r| |by rewrite app_nil_r].
  apply (paths_of_app path (String x v)).
Qed.

Lemma ends_with_sep_app s x b :
  ends_with_sep (s +:+ String x b) = ends_with_sep (String x b).
Proof.
  induction s as [|y s IH]; [done|].
  change (ends_with_sep (String y (s +:+ String x b)) =
            ends_with_sep (String x b)).
  rewrite <- IH. destruct s; reflexivity.
Qed.

Lemma eqb_app_nonempty s x b :
  String.eqb (s +:+ String x b) EmptyString = false.
Proof. by destruct s. Qed.

(** A relative component that is not empty goes after a slash, when the
    path before it ends with a letter. *)
Lemma join_step_word s x b y (t : string) :
  y ≠ "/"%char → ends_with_sep (String x b) = false →
  join_step (s +:+ String x b) (String y t) =
    s +:+ String x b +:+ sep_s +:+ String y t.
Proof.
  intros Hy Hx. unfold join_step, startswith.
  assert (String.prefix sep_s (String y t) = false) as ->.
  { unfold sep_s. cbn [String.prefix]. by destruct (ascii_dec "/" y). }
  rewrite eqb_app_nonempty, ends_with_sep_app, Hx. simpl.
  by rewrite !append_assoc.
Qed.

Lemma path_join_install rootdir api leaf :
  api = "grib_api" ∨ api = "eccodes" →
  leaf = "samples" ∨ leaf = "definitions" →
  path_join rootdir ["share"; api; leaf] = install_dir rootdir api leaf.
Proof.
  intros Hapi Hleaf. unfold path_join, install_dir. simpl.
  assert (join_step rootdir "share" = with_slash rootdir +:+ "share") as ->.
  { unfold join_step, with_slash, startswith. simpl.
    destruct (_ || _); [done|]. by rewrite append_assoc. }
  destruct Hapi as [-> | ->], Hleaf as [-> | ->].
  all: rewrite (join_step_word (with_slash rootdir) "s" "hare") by done.
  all: rewrite <- !append_assoc.
  all: match goal with
       | |- context [join_step (?p +:+ "grib_api")] =>
           rewrite (join_step_word p "g" "rib_api") by done
       | |- context [join_step (?p +:+ "eccodes")] =>
           rewrite (join_step_word p "e" "ccodes") by done
       end.
  all: by rewrite !append_assoc.
Qed.

Lemma value_of_insert_eq env var v : value_of (<[var := v]> env) var = v.
Proof. unfold value_of. by rewrite lookup_insert_eq. Qed.

Lemma value_of_insert_ne env var var' v :
  var ≠ var' → value_of (<[var := v]> env) var' = value_of env var'.
Proof. intros H. unfold value_of. by rewrite lookup_insert_ne. Qed.

End PathsProps.

(** X6: the paths that the getters return are never empty strings or [.],
    and none of them holds the path separator. *)
Theorem X6_paths_are_proper obj env p :
  p ∈ _get_paths obj env →
  p ≠ EmptyString ∧ p ≠ "." ∧ has_char pathsep p = false.
Proof.
  unfold _get_paths. intros Hin%list_elem_of_In%List.filter_In.
  destruct Hin as [Hin%list_elem_of_In Hkept].
  unfold kept in Hkept. apply negb_true_iff, orb_false_iff in Hkept.
  destruct Hkept as [H1%String.eqb_neq H2%String.eqb_neq].
  split; [done|]. split; [done|]. by eapply split_no_sep.
Qed.

Lemma X6_witness :
  "/opt/defs" ≠ EmptyString ∧ "/opt/defs" ≠ "." ∧
  has_char pathsep "/opt/defs" = false.
Proof.
  apply (X6_paths_are_proper "DEFINITION"
           {[ "GRIB_DEFINITION_PATH" := ".:/opt/defs::" ]} "/opt/defs").
  vm_compute. apply list_elem_of_In. left. reflexivity.
Defined.

(** X7: [set_definition_path] for [eccodes] puts the paths of its argument
    at the head of the definition paths that the getter returns; for
    [grib_api] it puts them behind every path of the ECCODES variable. With
    [reset] the paths that the variable of the API held are dropped, without
    it they follow the new ones. The call returns, and the samples paths and
    every other variable are as before. *)
Theorem X7_set_definition_path path reset env :
  let e := set_definition_path path "eccodes" reset env in
  let g := set_definition_path path "grib_api" reset env in
  e.1 = inr tt ∧ g.1 = inr tt
  ∧ get_definition_paths e.2 =
      paths_of path ++
      (if reset then paths_of (value_of env "GRIB_DEFINITION_PATH")
       else get_definition_paths env)
  ∧ get_definition_paths g.2 =
      paths_of (value_of env "ECCODES_DEFINITION_PATH") ++ paths_of path ++
      (if reset then [] else paths_of (value_of env "GRIB_DEFINITION_PATH"))
  ∧ get_samples_paths e.2 = get_samples_paths env
  ∧ get_samples_paths g.2 = get_samples_paths env
  ∧ (∀ var, var ≠ "ECCODES_DEFINITION_PATH" → e.2 !! var = env !! var)
  ∧ (∀ var, var ≠ "GRIB_DEFINITION_PATH" → g.2 !! var = env !! var).
Proof.
  intros e g. subst e g. unfold set_definition_path. simpl.
  split; [done|]. split; [done|].
  unfold get_definition_paths, get_samples_paths.
  rewrite !get_paths_of.
  change ("ECCODES_" +:+ "DEFINITION" +:+ "_PATH")
    with "ECCODES_DEFINITION_PATH".
  change ("GRIB_" +:+ "DEFINITION" +:+ "_PATH") with "GRIB_DEFINITION_PATH".
  change ("ECCODES_" +:+ "SAMPLES" +:+ "_PATH") with "ECCODES_SAMPLES_PATH".
  change ("GRIB_" +:+ "SAMPLES" +:+ "_PATH") with "GRIB_SAMPLES_PATH".
  rewrite !value_of_insert_eq, !value_of_insert_ne by done.
  rewrite !paths_of_with_predefined.
  split; [|split; [|split; [done|split; [done|split]]]].
  - rewrite <- (assoc_L (++)). by destruct reset.
  - done.
  - intros var Hvar. by rewrite lookup_insert_ne.
  - intros var Hvar. by rewrite lookup_insert_ne.
Qed.

(** X8: with an API name that is neither [grib_api] nor [eccodes], both
    setters raise an UnboundLocalError, whatever [reset] is, and leave the
    environment as it was. *)
Theorem X8_unknown_api_is_unbound api :
  api ≠ "grib_api" → api ≠ "eccodes" →
  ∀ path reset env,
    set_definition_path path api reset env = (inl UnboundLocalError, env)
    ∧ complete_grib_paths path api reset env = (inl UnboundLocalError, env).
Proof.
  intros H1%String.eqb_neq H2%String.eqb_neq path reset env.
  unfold set_definition_path, complete_grib_paths, variables.
  by rewrite H1, H2.
Qed.

Lemma X8_witness :
  set_definition_path "/opt/defs" "ecCodes" true ∅ = (inl UnboundLocalError, ∅).
Proof.
  refine (proj1 (X8_unknown_api_is_unbound "ecCodes" _ _ "/opt/defs" true ∅));
    discriminate.
Defined.

(** X9: for a known API, [complete_grib_paths] returns and sets the two
    variables of the API, and no other: each gets the directory
    [rootdir/share/api/samples] or [.../definitions] of the installation
    (a slash is added after [rootdir] unless it is empty or ends with one),
    in front of the paths it held, or in place of them with [reset]. On the
    definition paths that the getter returns it acts as
    [set_definition_path] with the definitions directory. *)
Theorem X9_complete_grib_paths rootdir api reset env sp dp :
  variables api = Some (sp, dp) →
  let r := complete_grib_paths rootdir api reset env in
  r.1 = inr tt
  ∧ paths_of (value_of r.2 sp) =
      paths_of (install_dir rootdir api "samples") ++
      (if reset then [] else paths_of (value_of env sp))
  ∧ paths_of (value_of r.2 dp) =
      paths_of (install_dir rootdir api "definitions") ++
      (if reset then [] else paths_of (value_of env dp))
  ∧ (∀ var, var ≠ sp → var ≠ dp → r.2 !! var = env !! var)
  ∧ get_definition_paths r.2 =
      get_definition_paths
        (set_definition_path (install_dir rootdir api "definitions") api
           reset env).2.
Proof.
  intros Hvars r. subst r.
  assert (api = "grib_api" ∨ api = "eccodes") as Hapi.
  { unfold variables in Hvars.
    destruct (String.eqb_spec api "grib_api"); [by left|].
    destruct (String.eqb_spec api "eccodes"); [by right|done]. }
  assert (sp ≠ dp ∧ sp ≠ "ECCODES_DEFINITION_PATH"
          ∧ sp ≠ "GRIB_DEFINITION_PATH") as (Hne & Hne1 & Hne2).
  { destruct Hapi as [-> | ->]; injection Hvars as <- <-; done. }
  unfold complete_grib_paths, set_definition_path. rewrite Hvars.
  rewrite !path_join_install by auto. simpl.
  split; [done|].
  split.
  { rewrite value_of_insert_ne, value_of_insert_eq by done.
    apply paths_of_with_predefined. }
  split.
  { rewrite value_of_insert_eq. apply paths_of_with_predefined. }
  split.
  { intros var H1 H2. by rewrite !lookup_insert_ne. }
  unfold get_definition_paths. rewrite !get_paths_of.
  change ("ECCODES_" +:+ "DEFINITION" +:+ "_PATH")
    with "ECCODES_DEFINITION_PATH".
  change ("GRIB_" +:+ "DEFINITION" +:+ "_PATH") with "GRIB_DEFINITION_PATH".
  destruct Hapi as [-> | ->]; injection Hvars as <- <-.
  all: by rewrite ?value_of_insert_eq, ?value_of_insert_ne,
         ?value_of_insert_eq, ?value_of_insert_ne by done.
Qed.

Lemma X9_witness :
  get_definition_paths
    (complete_grib_paths "/opt/eccodes" "eccodes" false
       {[ "GRIB_DEFINITION_PATH" := "/old/defs" ]}).2
  = ["/opt/eccodes/share/eccodes/definitions"; "/old/defs"].
Proof.
  destruct (X9_complete_grib_paths "/opt/eccodes" "eccodes" false
              {[ "GRIB_DEFINITION_PATH" := "/old/defs" ]}
              "ECCODES_SAMPLES_PATH" "ECCODES_DEFINITION_PATH")
    as (_ & _ & _ & _ & Hget).
  - reflexivity.
  - rewrite Hget. vm_compute. reflexivity.
Defined.

(* ===================================================================== *)
(** * More properties of the store *)
(* ===================================================================== *)

Section StoreMore.

Implicit Types (w : world) (c e f : string) (h r : record).

(** What [read] answers, in the order in which it can fail. *)
Lemma read_outcome filename ge w :
  (read filename ge w).1 =
    match infer_edition filename ge with
    | None => Raise KeyError
    | Some g =>
        match tables (self w) !! g with
        | None => Raise KeyError
        | Some _ =>
            match files w !! filename with
            | None => Raise IOError
            | Some text =>
                match parse text with
                | Ok _ => Ok tt
                | Raise ex => Raise ex
                end
            end
        end
    end
  ∧ (∀ ex, (read filename ge w).1 = Raise ex → (read filename ge w).2 = w).
Proof.
  destruct (infer_edition filename ge) as [g|] eqn:Hg.
  2:{ unfold read. rewrite Hg. by munfold. }
  destruct (tables (self w) !! g) as [t|] eqn:Ht.
  2:{ unfold read. rewrite Hg. munfold. simpl. by rewrite Ht. }
  destruct (files w !! filename) as [text|] eqn:Htext.
  2:{ unfold read, read_gribdef. rewrite Hg. munfold. simpl.
      by rewrite Ht, Htext. }
  destruct (parse text) as [frag|ex0] eqn:Hfrag.
  2:{ unfold read, read_gribdef. rewrite Hg. munfold. simpl.
      by rewrite Ht, Htext, Hfrag. }
  destruct (read_run _ _ _ _ _ _ _ Hg Ht Htext Hfrag)
    as (refs & h' & _ & _ & _ & ->).
  by split.
Qed.

Lemma read_keeps_flag filename ge w :
  initialized (self (read filename ge w).2) = initialized (self w)
  ∧ dom (tables (self (read filename ge w).2)) = dom (tables (self w))
  ∧ files (read filename ge w).2 = files w
  ∧ init_runs (read filename ge w).2 = init_runs w.
Proof.
  destruct (read_outcome filename ge w) as [Hout Hfail].
  destruct (read filename ge w).1 as [[]|ex] eqn:Hres.
  2:{ by rewrite (Hfail ex eq_refl). }
  destruct (infer_edition filename ge) as [g|] eqn:Hg; [|done].
  destruct (tables (self w) !! g) as [t|] eqn:Ht; [|done].
  destruct (files w !! filename) as [text|] eqn:Htext; [|done].
  destruct (parse text) as [frag|ex0] eqn:Hfrag; [|done].
  destruct (read_run _ _ _ _ _ _ _ Hg Ht Htext Hfrag)
    as (refs & h' & _ & _ & _ & ->).
  simpl. repeat split; try done.
  rewrite dom_insert_L. apply elem_of_dom_2 in Ht.
  apply set_eq. intros x. rewrite elem_of_union, elem_of_singleton.
  split; [intros [->|?]; done|by right].
Qed.

End StoreMore.

(** X10: a call of [read] that raises leaves the files, the record objects
    and the store exactly as they were. It raises a KeyError when no edition
    is given and found in the file name or the edition is not one of the
    store, else an IOError when the file is missing, else what the parser
    raises; otherwise it returns. *)
Theorem X10_failed_read_changes_nothing filename ge w :
  (∀ ex, (read filename ge w).1 = Raise ex → (read filename ge w).2 = w)
  ∧ (read filename ge w).1 =
      match infer_edition filename ge with
      | None => Raise KeyError
      | Some g =>
          match tables (self w) !! g with
          | None => Raise KeyError
          | Some _ =>
              match files w !! filename with
              | None => Raise IOError
              | Some text =>
                  match parse text with
                  | Ok _ => Ok tt
                  | Raise ex => Raise ex
                  end
              end
          end
      end.
Proof. destruct (read_outcome filename ge w). by split. Qed.

(** X11: what [read] registers, the lookups return. After a file with the
    record [r] for the field [f] is read into a store of the base class, the
    direct lookup of [f] under the concept and edition of the file returns
    the items of [r] (without the comment unless it is asked for), and the
    reverse lookup with the comments kept returns [f] for every identifier
    set whose items are items of [r]. *)
Theorem X11_read_then_lookup str2dict filename ge g t text frag f r b w :
  wf w → initialized (self w) = Some b →
  infer_edition filename ge = Some g →
  tables (self w) !! g = Some t →
  files w !! filename = Some text →
  parse text = Ok frag →
  frag !! f = Some r →
  ∃ w1,
    read filename ge w = (Ok tt, w1)
    ∧ (∀ ic, seen_record
               (_get_def pass (FidStr f) (concept_of filename) g ic w1)
             = Ok (Some (handed_out ic r)))
    ∧ (∀ h, (∀ k v, h !! k = Some v →
                    ∃ x, r !! k = Some x ∧ py_eq x v = true) →
            ∃ fields,
              seen_fields
                (_lookup_from_kv str2dict pass (FidDict h)
                   (concept_of filename) g true w1) = Ok fields
              ∧ f ∈ dom fields).
Proof.
  intros Hwf Hb Hg Ht Htext Hfrag Hf.
  destruct (read_spec _ _ _ _ _ _ _ Hwf Hg Ht Htext Hfrag)
    as (w1 & Hread & Hwf1 & Hin & _).
  pose proof (read_keeps_flag filename ge w) as (Hflag & _).
  rewrite Hread in Hflag. simpl in Hflag. rewrite Hb in Hflag.
  pose proof (Hin f) as Hstored. rewrite Hf in Hstored.
  exists w1. split; [done|]. split.
  - intros ic. rewrite (get_def_run f _ g ic b w1 r Hflag Hstored).
    unfold seen_record. simpl. by rewrite lookup_insert_eq.
  - intros h Hh.
    assert (∃ tb, table_of w1 g (concept_of filename) = Some tb) as [tb Htb].
    { unfold stored in Hstored. unfold table_of.
      destruct (tables (self w1) !! g) as [t1|]; simpl in *; [|done].
      destruct (t1 !! concept_of filename) as [tb|]; simpl in *; [|done].
      eauto. }
    destruct (reverse_lookup_with_comments str2dict h _ g b w1 tb Hwf1 Hflag Htb)
      as (fields & Hrun & Hdom).
    exists fields. split; [done|]. apply Hdom. eauto.
Qed.

Lemma X11_witness :
  ∃ w1,
    read "definitions/grib2/demo.def" None Examples.w_lazy = (Ok tt, w1)
    ∧ seen_record
        (_get_def pass (FidStr "foo")
           (concept_of "definitions/grib2/demo.def") "grib2" false w1)
      = Ok (Some (handed_out false
                    {[ Some "key" := VInt 3; Some "x" := VInt 1 ]})).
Proof.
  destruct (X11_read_then_lookup Examples.str2dict
              "definitions/grib2/demo.def" None "grib2" ∅ Examples.text_demo
              {[ "foo" := {[ Some "key" := VInt 3; Some "x" := VInt 1 ]};
                 "bar" := {[ Some "key" := VInt 4 ]} ]}
              "foo" {[ Some "key" := VInt 3; Some "x" := VInt 1 ]}
              false Examples.w_lazy)
    as (w1 & Hread & Hdirect & _).
  - apply wf_check_sound. vm_compute. reflexivity.
  - reflexivity.
  - vm_compute. reflexivity.
  - vm_compute. reflexivity.
  - vm_compute. reflexivity.
  - vm_compute. reflexivity.
  - vm_compute. reflexivity.
  - exists w1. split; [exact Hread|]. exact (Hdirect false).
Defined.

(** X12: a store of the base class has the two editions [grib1] and
    [grib2], with an empty table for each concept given to the constructor,
    and no sequence of [read] calls adds or removes an edition: on such a
    store, [read] with any other explicit edition raises a KeyError and
    changes nothing. *)
Theorem X12_two_editions b concepts w0 (reads : list (string * option string)) :
  let built := (__init__ pass b concepts w0).2 in
  let w := foldl (λ w '(filename, ge), (read filename ge w).2) built reads in
  (∀ e c, e = "grib1" ∨ e = "grib2" →
          table_of built e c = if decide (c ∈ concepts) then Some ∅ else None)
  ∧ dom (tables (self w)) = {[ "grib1"; "grib2" ]}
  ∧ ∀ filename g, g ≠ "grib1" → g ≠ "grib2" →
                  read filename (Some g) w = (Raise KeyError, w).
Proof.
  intros built w.
  assert (dom (tables (self built)) = {[ "grib1"; "grib2" ]}) as Hbuilt.
  { subst built. destruct b; simpl; by rewrite dom_insert_L, dom_singleton_L. }
  assert (dom (tables (self w)) = {[ "grib1"; "grib2" ]}) as Hdom.
  { subst w. revert Hbuilt. generalize built. clear.
    induction reads as [|[filename ge] reads IH]; intros w Hw; [done|].
    simpl. apply IH.
    by destruct (read_keeps_flag filename ge w) as (_ & -> & _). }
  split; [|split; [done|]].
  - intros e c He. subst built. unfold table_of.
    assert (∀ t : gmap string table,
              t = list_to_map ((λ c0 : string, (c0, (∅ : table))) <$> concepts) →
              t !! c = if decide (c ∈ concepts) then Some ∅ else None) as Ht.
    { intros t ->. destruct (decide (c ∈ concepts)) as [Hc|Hc].
      - apply elem_of_list_to_map_1'.
        + intros y Hy. apply list_elem_of_fmap in Hy as (c' & [= _ ->] & _).
          done.
        + apply list_elem_of_fmap. by exists c.
      - apply not_elem_of_list_to_map_1. rewrite <- list_fmap_compose.
        intros Hin. apply Hc. apply list_elem_of_fmap in Hin as (c' & -> & ?).
        done. }
    destruct b, He as [-> | ->]; simpl;
      rewrite ?lookup_insert_eq, ?lookup_insert_ne, ?lookup_singleton_eq
        by done; simpl; by apply Ht.
  - intros filename g H1 H2.
    assert (tables (self w) !! g = None) as Hnone.
    { apply not_elem_of_dom. rewrite Hdom.
      intros [->%elem_of_singleton | ->%elem_of_singleton]%elem_of_union; done. }
    unfold read. simpl. munfold. simpl. by rewrite Hnone.
Qed.

(** X13: with the comments kept, a wider identifier set never returns more:
    when every item of [h1] is an item of [h2], each field that the reverse
    lookup returns for [h2] is returned for [h1]; and the empty identifier
    set returns every field of the table. *)
Theorem X13_wider_probe_returns_less str2dict h1 h2 c e b w tb :
  wf w → initialized (self w) = Some b → table_of w e c = Some tb →
  h1 ⊆ h2 →
  ∃ fields1 fields2 all,
    seen_fields (_lookup_from_kv str2dict pass (FidDict h1) c e true w)
      = Ok fields1
    ∧ seen_fields (_lookup_from_kv str2dict pass (FidDict h2) c e true w)
        = Ok fields2
    ∧ seen_fields (_lookup_from_kv str2dict pass (FidDict ∅) c e true w)
        = Ok all
    ∧ dom fields2 ⊆ dom fields1
    ∧ dom all = dom tb.
Proof.
  intros Hwf Hb Htb Hsub.
  destruct (reverse_lookup_with_comments str2dict h1 c e b w tb Hwf Hb Htb)
    as (fields1 & Hrun1 & Hdom1).
  destruct (reverse_lookup_with_comments str2dict h2 c e b w tb Hwf Hb Htb)
    as (fields2 & Hrun2 & Hdom2).
  destruct (reverse_lookup_with_comments str2dict ∅ c e b w tb Hwf Hb Htb)
    as (all & Hrun0 & Hdom0).
  exists fields1, fields2, all. repeat split; try done.
  - intros f (r & Hr & Hall)%Hdom2. apply Hdom1. exists r. split; [done|].
    intros k v Hkv. apply Hall. by eapply lookup_weaken.
  - apply set_eq. intros f. rewrite Hdom0, elem_of_dom.
    rewrite (table_of_stored w e c tb f Htb). split.
    + intros (r & Hr & _). destruct (tb !! f); [eauto|done].
    + intros [l Hl]. rewrite Hl. simpl.
      assert (l ∈ dom (heap w)) as [r Hr]%elem_of_dom.
      { unfold table_of in Htb.
        destruct (tables (self w) !! e) as [t|] eqn:Ht; simpl in Htb; [|done].
        eapply Hwf; eauto. }
      exists r. split; [done|]. intros k v. by rewrite lookup_empty.
Qed.

Lemma X13_witness :
  ∃ fields1 fields2 all,
    seen_fields (_lookup_from_kv Examples.str2dict pass (FidDict ∅)
                   "demo" "grib2" true Examples.w_demo) = Ok fields1
    ∧ seen_fields (_lookup_from_kv Examples.str2dict pass
                     (FidDict {[ Some "key" := VInt 3 ]})
                     "demo" "grib2" true Examples.w_demo) = Ok fields2
    ∧ seen_fields (_lookup_from_kv Examples.str2dict pass (FidDict ∅)
                     "demo" "grib2" true Examples.w_demo) = Ok all
    ∧ dom fields2 ⊆ dom fields1
    ∧ dom all = {[ "foo"; "bar" ]}.
Proof.
  destruct (X13_wider_probe_returns_less Examples.str2dict
              ∅ {[ Some "key" := VInt 3 ]} "demo" "grib2" false
              Examples.w_demo {[ "foo" := 1%positive; "bar" := 2%positive ]})
    as (fields1 & fields2 & all & H1 & H2 & H3 & H4 & H5).
  - apply wf_check_sound. vm_compute. reflexivity.
  - reflexivity.
  - vm_compute. reflexivity.
  - apply map_empty_subseteq.
  - exists fields1, fields2, all.
    split; [exact H1|]. split; [exact H2|]. split; [exact H3|].
    split; [exact H4|]. rewrite H5. vm_compute. reflexivity.
Defined.

(* ===================================================================== *)
(** * What the patterns accept *)
(* ===================================================================== *)

Section Patterns.

Implicit Types (s t : string) (g m : groups) (p : ascii → bool)
  (k : string → groups → option groups).

Lemma run_Star (r1 : regex) s g k :
  run (Star r1) s g k = star_loop r1 k (String.length s) s g.
Proof. reflexivity. Qed.

Lemma length_app s t :
  String.length (s +:+ t) = (String.length s + String.length t)%nat.
Proof.
  induction s as [|a s IH]; [done|].
  change (S (String.length (s +:+ t)) = S (String.length s + String.length t)).
  by rewrite IH.
Qed.

Lemma substring_app s t : String.substring 0 (String.length s) (s +:+ t) = s.
Proof.
  induction s as [|a s IH]; [by destruct t|].
  change (String a (String.substring 0 (String.length s) (s +:+ t))
          = String a s).
  by rewrite IH.
Qed.

(** What a pattern consumed in front of [t] when it went from [s +:+ t] to
    [t] is [s]. *)
Lemma consumed_app s t : consumed (s +:+ t) t = s.
Proof.
  unfold consumed. rewrite length_app.
  replace (String.length s + String.length t - String.length t)%nat
    with (String.length s) by lia.
  apply substring_app.
Qed.

(** A repeated class is greedy: in front of a text that does not start in
    the class, it takes all of a run of the class, when what follows the
    repetition accepts that. *)
Lemma star_cls_greedy p k g m t :
  stops p t = true → k t g = Some m →
  ∀ s n, all_chars p s = true → (String.length s ≤ n)%nat →
         star_loop (Cls p) k n (s +:+ t) g = Some m.
Proof.
  intros Ht Hk. induction s as [|a s IH]; intros n Hs Hn.
  - change (EmptyString +:+ t) with t. destruct n as [|n]; simpl; [done|].
    destruct t as [|b t]; simpl in *; [by rewrite Hk|].
    apply negb_true_iff in Ht. by rewrite Ht, Hk.
  - simpl in Hs. apply andb_prop in Hs as [Ha Hs].
    destruct n as [|n]; simpl in Hn; [lia|].
    change (String a s +:+ t) with (String a (s +:+ t)).
    simpl. rewrite Ha.
    assert ((String.length (s +:+ t) <? S (String.length (s +:+ t)))%nat
            = true) as -> by (apply Nat.ltb_lt; lia).
    rewrite (IH n Hs) by lia. done.
Qed.

Lemma run_star_cls p k g m s t :
  all_chars p s = true → stops p t = true → k t g = Some m →
  run (Star (Cls p)) (s +:+ t) g k = Some m.
Proof.
  intros Hs Ht Hk. rewrite run_Star.
  apply star_cls_greedy; [done..|]. rewrite length_app. lia.
Qed.

(** The same for a class repeated once at least, in a group. *)
Lemma run_group_plus_cls name p k g m a s t :
  p a = true → all_chars p s = true → stops p t = true →
  k t (<[name := String a s]> g) = Some m →
  run (Group name (Plus (Cls p))) (String a s +:+ t) g k = Some m.
Proof.
  intros Ha Hs Ht Hk. rewrite run_Group. unfold Plus. rewrite run_Seq.
  change (String a s +:+ t) with (String a (s +:+ t)).
  cbn [run]. rewrite Ha. fold (run (Star (Cls p))).
  apply run_star_cls; [done..|].
  change (String a (s +:+ t)) with (String a s +:+ t).
  by rewrite consumed_app.
Qed.

Lemma run_Chr_eq (c : ascii) s g k : run (Chr c) (String c s) g k = k s g.
Proof. simpl. by rewrite Ascii.eqb_refl. Qed.

Lemma run_Chr_ne (c a : ascii) s g k :
  a ≠ c → run (Chr c) (String a s) g k = None.
Proof. intros H%Ascii.eqb_neq. simpl. by rewrite H. Qed.

(** Either quote opens or closes a name. *)
Lemma run_quote (q : ascii) s g k m :
  q = dquote ∨ q = squote → k s g = Some m →
  run quote (String q s) g k = Some m.
Proof.
  intros Hq Hk. unfold quote. rewrite run_Alt.
  destruct Hq as [-> | ->].
  - by rewrite run_Chr_eq, Hk.
  - rewrite (run_Chr_ne dquote squote) by done. by rewrite run_Chr_eq.
Qed.

Lemma space_not_word (c : ascii) : is_space c = true → is_word c = false.
Proof. destruct c as [[] [] [] [] [] [] [] []]; by vm_compute. Qed.

Lemma digit_not_space (c : ascii) : is_digit c = true → is_space c = false.
Proof. destruct c as [[] [] [] [] [] [] [] []]; by vm_compute. Qed.

Lemma word_not_hash (c : ascii) : is_word c = true → c ≠ "#"%char.
Proof. by intros H ->. Qed.

End Patterns.

(** X14: a line made of a quote, a name (one character at least, each a
    letter, a digit, an underscore, a dot, a dash or a space), a quote,
    blanks and an equal sign is a field header whatever follows, and the
    name it declares is the text between the quotes. The quotes may be of
    either kind, and need not be of the same kind. *)
Theorem X14_header_name (q1 q2 a : ascii) (name sp rest : string) :
  q1 = dquote ∨ q1 = squote → q2 = dquote ∨ q2 = squote →
  is_name_char a = true → all_chars is_name_char name = true →
  all_chars is_space sp = true →
  rmatch re_name
    (String q1 (String a name +:+ String q2 (sp +:+ String "=" rest)))
  = Some {[ "name" := String a name ]}.
Proof.
  intros Hq1 Hq2 Ha Hname Hsp. unfold rmatch, re_name.
  rewrite run_Seq. apply run_quote; [done|].
  rewrite run_Seq. apply run_group_plus_cls; [done..| |].
  { simpl. by destruct Hq2 as [-> | ->]. }
  rewrite run_Seq. apply run_quote; [done|].
  rewrite run_Seq. apply run_star_cls; [done..|].
  by rewrite run_Chr_eq.
Qed.

Lemma X14_witness :
  rmatch re_name
    (String dquote (String "t" "emp 2m" +:+
       String squote (" " +:+ String "=" " { a = 1 ; }")))
  = Some {[ "name" := "temp 2m" ]}.
Proof. by apply X14_header_name; [left|right|..]. Defined.

Section AttributeLines.

Implicit Types (s t : string) (g m : groups) (p : ascii → bool)
  (k : string → groups → option groups).

Lemma stops_after p sp (c : ascii) t :
  all_chars is_space sp = true →
  (∀ b, is_space b = true → p b = false) → p c = false →
  stops p (sp +:+ String c t) = true.
Proof.
  intros Hsp Hp Hc. destruct sp as [|b sp]; simpl in *.
  - by rewrite Hc.
  - apply andb_prop in Hsp as [Hb _]. by rewrite (Hp b Hb).
Qed.

Lemma digits_go_all s :
  all_chars is_digit s = true →
  ∀ acc n, 0 ≤ acc →
    ∃ v, 0 ≤ v ∧ digits_go acc n s = Some (v, n + Z.of_nat (String.length s)).
Proof.
  induction s as [|d s IH]; intros Hs acc n Hacc; simpl in *.
  - exists acc. split; [done|]. f_equal. f_equal. lia.
  - apply andb_prop in Hs as [Hd Hs]. unfold digit_val. rewrite Hd.
    assert (0 ≤ Z.of_N (code d) - 48) as Hv.
    { unfold is_digit, between in Hd. apply andb_prop in Hd as [Hlo _].
      apply N.leb_le in Hlo. lia. }
    destruct (IH Hs (10 * acc + (Z.of_N (code d) - 48)) (n + 1))
      as (v & Hv0 & ->); [lia|].
    exists v. split; [done|]. f_equal. f_equal. lia.
Qed.

(** [int] of a run of digits, with or without a minus. *)
Lemma py_int_number (neg : bool) (d : ascii) ds :
  is_digit d = true → all_chars is_digit ds = true →
  ∃ v, 0 ≤ v ∧
       py_int ((if neg then "-" else EmptyString) +:+ String d ds)
         = Ok (if neg then - v else v).
Proof.
  intros Hd Hds.
  destruct (digits_go_all (String d ds)) with (acc := 0) (n := 0)
    as (v & Hv & Hrun); [simpl; by rewrite Hd|done|].
  exists v. split; [done|]. unfold py_int.
  assert (∀ b : bool,
            take_sign ((if b then "-" else EmptyString) +:+ String d ds)
            = (b, String d ds)) as Hsign.
  { intros [|]; [done|]. change (EmptyString +:+ String d ds) with (String d ds).
    unfold take_sign.
    destruct d as [[] [] [] [] [] [] [] []]; try done; by vm_compute in Hd. }
  rewrite Hsign. unfold digits. rewrite Hrun.
  assert ((0 <? 0 + Z.of_nat (String.length (String d ds))) = true) as ->.
  { apply Z.ltb_lt. simpl. lia. }
  done.
Qed.

(** The groups of a line "key, blanks, equal sign, blanks, number". *)
Lemma keyvalue_number (neg : bool) (a d : ascii) key sp1 sp2 ds rest :
  is_word a = true → all_chars is_word key = true →
  all_chars is_space sp1 = true → all_chars is_space sp2 = true →
  is_digit d = true → all_chars is_digit ds = true →
  stops is_digit rest = true →
  rmatch re_keyvalue
    (String a key +:+ sp1 +:+
       String "=" (sp2 +:+
         ((if neg then "-" else EmptyString) +:+ String d ds) +:+ rest))
  = Some {[ "key" := String a key;
            "int" := (if neg then "-" else EmptyString) +:+ String d ds ]}.
Proof.
  intros Ha Hkey Hsp1 Hsp2 Hd Hds Hrest.
  assert (d ≠ "+"%char ∧ d ≠ "-"%char) as [Hplus Hminus].
  { split; intros ->; by vm_compute in Hd. }
  unfold rmatch, re_keyvalue. rewrite run_Alt.
  match goal with
  | |- match ?x with _ => _ end = Some ?m =>
      assert (x = Some m) as ->; [|done]
  end.
  rewrite run_Seq. apply run_group_plus_cls; [done..| |].
  { apply stops_after; [done|apply space_not_word|done]. }
  rewrite run_Seq. apply run_star_cls; [done..|].
  rewrite run_Seq, run_Chr_eq.
  rewrite run_Seq. apply run_star_cls; [done| |].
  { destruct neg; [done|].
    change ((EmptyString +:+ String d ds) +:+ rest)
      with (String d (ds +:+ rest)).
    simpl. by rewrite (digit_not_space d Hd). }
  unfold re_int_g. rewrite run_Group. unfold re_int. rewrite run_Alt.
  assert (∀ k g (x : ascii) t, x ≠ "+"%char → run (Chr "+") (String x t) g k = None)
    as Hnoplus by (intros; by apply run_Chr_ne).
  destruct neg.
  - change (("-" +:+ String d ds) +:+ rest)
      with (String "-" (String d ds +:+ rest)).
    rewrite Hnoplus by done.
    rewrite run_Seq. unfold minus, Opt. rewrite run_Alt, run_Chr_eq.
    match goal with
    | |- match ?x with _ => _ end = Some ?m =>
        assert (x = Some m) as ->; [|done]
    end.
    unfold Plus, digit. rewrite run_Seq.
    change (String d ds +:+ rest) with (String d (ds +:+ rest)).
    cbn [run]. rewrite Hd. fold (run (Star (Cls is_digit))).
    apply run_star_cls; [done..|].
    change (String "-" (String d (ds +:+ rest)))
      with (String "-" (String d ds) +:+ rest).
    rewrite consumed_app. apply f_equal.
    by apply insert_insert_ne.
  - change ((EmptyString +:+ String d ds) +:+ rest)
      with (String d (ds +:+ rest)).
    rewrite Hnoplus by done.
    rewrite run_Seq. unfold minus, Opt. rewrite run_Alt.
    rewrite (run_Chr_ne "-" d) by done.
    unfold Plus, digit. cbn [run]. rewrite Hd. fold (run (Star (Cls is_digit))).
    apply run_star_cls; [done..|].
    change (String d (ds +:+ rest)) with (String d ds +:+ rest).
    rewrite consumed_app. apply f_equal.
    by apply insert_insert_ne.
Qed.

(** The groups of a line "key, blanks, equal sign, blanks, plus sign". *)
Lemma keyvalue_plus (a : ascii) key sp1 sp2 rest :
  is_word a = true → all_chars is_word key = true →
  all_chars is_space sp1 = true → all_chars is_space sp2 = true →
  rmatch re_keyvalue
    (String a key +:+ sp1 +:+ String "=" (sp2 +:+ String "+" rest))
  = Some {[ "key" := String a key; "int" := "+" ]}.
Proof.
  intros Ha Hkey Hsp1 Hsp2.
  unfold rmatch, re_keyvalue. rewrite run_Alt.
  match goal with
  | |- match ?x with _ => _ end = Some ?m =>
      assert (x = Some m) as ->; [|done]
  end.
  rewrite run_Seq. apply run_group_plus_cls; [done..| |].
  { apply stops_after; [done|apply space_not_word|done]. }
  rewrite run_Seq. apply run_star_cls; [done..|].
  rewrite run_Seq, run_Chr_eq.
  rewrite run_Seq. apply run_star_cls; [done..|].
  unfold re_int_g. rewrite run_Group. unfold re_int.
  rewrite run_Alt, run_Chr_eq.
  change (String "+" rest) with ("+" +:+ rest). rewrite consumed_app.
  apply f_equal. by apply insert_insert_ne.
Qed.

End AttributeLines.

(** X15: in the span of a field, a line made of a key (letters, digits,
    underscores), blanks, an equal sign, blanks and digits, with or without
    a minus, writes the integer under the key, whatever follows the digits
    unless it is a digit: the semicolon is not needed, and a fraction or an
    exponent after the digits is not read. The same line with a plus sign
    in the place of the number makes the parser raise a ValueError. *)
Theorem X15_integer_attribute_line (neg : bool) (a d : ascii)
    (key sp1 sp2 ds rest : string) (ls : list string) (r : record) :
  is_word a = true → all_chars is_word key = true →
  all_chars is_space sp1 = true → all_chars is_space sp2 = true →
  is_digit d = true → all_chars is_digit ds = true →
  stops is_digit rest = true →
  (∃ v, 0 ≤ v
     ∧ py_int ((if neg then "-" else EmptyString) +:+ String d ds)
         = Ok (if neg then - v else v)
     ∧ fill_attrs
         ((String a key +:+ sp1 +:+
             String "=" (sp2 +:+
               ((if neg then "-" else EmptyString) +:+ String d ds) +:+ rest))
          :: ls) r
       = fill_attrs ls
           (<[Some (String a key) := VInt (if neg then - v else v)]> r))
  ∧ fill_attrs
      ((String a key +:+ sp1 +:+ String "=" (sp2 +:+ String "+" rest)) :: ls) r
    = Raise ValueError.
Proof.
  intros Ha Hkey Hsp1 Hsp2 Hd Hds Hrest. split.
  - destruct (py_int_number neg d ds Hd Hds) as (v & Hv & Hint).
    exists v. split; [done|]. split; [done|].
    cbn [fill_attrs].
    rewrite (keyvalue_number neg a d key sp1 sp2 ds rest) by done.
    unfold group.
    match goal with |- context [ ?m !! "real" ] => set (kv := m) end.
    assert (kv !! "int"
            = Some ((if neg then "-" else EmptyString) +:+ String d ds)) as Hi.
    { unfold kv. rewrite lookup_insert_ne by done. apply lookup_singleton_eq. }
    assert (kv !! "key" = Some (String a key)) as Hk
      by apply lookup_insert_eq.
    rewrite Hi, Hk.
    assert (truthy (Some ((if neg then "-" else EmptyString) +:+ String d ds))
            = true) as -> by by destruct neg.
    change (default EmptyString (Some ?x)) with x. by rewrite Hint.
  - cbn [fill_attrs]. rewrite (keyvalue_plus a key sp1 sp2 rest) by done.
    unfold group. rewrite lookup_insert_ne by done.
    by rewrite lookup_singleton_eq.
Qed.

Lemma X15_witness :
  fill_attrs ["other = 1.5e+2 ;"] ∅ = Ok {[ Some "other" := VInt 1 ]}
  ∧ fill_attrs ["level = +2 ;"] ∅ = Raise ValueError.
Proof.
  destruct (X15_integer_attribute_line false "o" "1" "ther" " " " " ""
              ".5e+2 ;" [] ∅) as [(v & _ & Hint & Hrun) Hplus]; try reflexivity.
  split.
  - etrans; [exact Hrun|]. vm_compute in Hint. injection Hint as <-.
    reflexivity.
  - vm_compute. reflexivity.
Defined.

Section Comments.

Implicit Types (lines : list string) (r : record) (f : string).

Lemma run_Cls (p : ascii → bool) (a : ascii) s g k :
  run (Cls p) (String a s) g k = if p a then k s g else None.
Proof. reflexivity. Qed.

(** The key that an attribute line writes under starts with a letter, a
    digit or an underscore: it is never the key of the comment. *)
Lemma key_group_word line m :
  rmatch re_keyvalue line = Some m → group m "key" ≠ comment_key.
Proof.
  unfold rmatch, re_keyvalue. rewrite run_Alt.
  destruct (run (Seq (Group "key" _) _) line ∅ _) as [m1|] eqn:Hleft.
  - intros [= ->]. rewrite run_Seq, run_Group in Hleft.
    unfold Plus in Hleft. rewrite run_Seq in Hleft.
    destruct line as [|a s0]; [done|]. rewrite run_Cls in Hleft.
    destruct (is_word a) eqn:Ha; [|done].
    apply run_inv in Hleft as (s1 & g1 & Hrun & Hlen & _). cbv beta in Hrun.
    apply run_inv in Hrun as (s2 & g2 & Hrun & _ & Hg).
    injection Hrun as <-. unfold group. rewrite Hg.
    + rewrite lookup_insert_eq. unfold consumed, comment_key.
      simpl in Hlen.
      destruct (String.length (String a s0) - String.length s1)%nat
        eqn:Hn; [simpl in Hn; lia|].
      simpl. intros [= -> _]. by vm_compute in Ha.
    + simpl. intros Hin.
      repeat (apply elem_of_cons in Hin as [?|Hin]; [done|]).
      by apply elem_of_nil in Hin.
  - intros Hrun.
    apply run_inv in Hrun as (s1 & g1 & Hrun & _ & Hg).
    injection Hrun as <-. unfold group. rewrite Hg; [done|].
    simpl. intros Hin. repeat (apply elem_of_cons in Hin as [?|Hin]; [done|]).
    by apply elem_of_nil in Hin.
Qed.

Lemma fill_attrs_comment ls :
  ∀ r r', fill_attrs ls r = Ok r' → r' !! comment_key = r !! comment_key.
Proof.
  induction ls as [|line rest IH]; intros r r' Hrun; simpl in Hrun.
  - by injection Hrun as <-.
  - destruct (rmatch re_keyvalue line) as [m|] eqn:Hm; [|by eapply IH].
    pose proof (key_group_word line m Hm) as Hkey.
    destruct (truthy (group m "int")).
    { unfold mbind, result_bind in Hrun.
      destruct (py_int _) as [z|]; simpl in Hrun; [|done].
      apply IH in Hrun as ->. by rewrite lookup_insert_ne. }
    destruct (truthy (group m "real")); [|by eapply IH].
    unfold mbind, result_bind in Hrun.
    destruct (py_float _) as [x|]; simpl in Hrun; [|done].
    apply IH in Hrun as ->. by rewrite lookup_insert_ne.
Qed.

Lemma set_comment_lookup lines i r :
  set_comment lines i r !! comment_key
  = from_option Some (r !! comment_key) (comment_above lines i).
Proof.
  unfold set_comment, comment_above. destruct i as [|n].
  - simpl. by destruct (lines !! 0%nat).
  - replace (S n - 1)%nat with n by lia.
    destruct (lines !! n) as [prev|]; [|done].
    change (0 <? S n)%nat with true. cbn [andb].
    destruct (startswith prev "#"); [|done]. by rewrite lookup_insert_eq.
Qed.

Lemma fill_span_comment lines i j r r' :
  fill_span lines i j r = Ok r' →
  r' !! comment_key
  = from_option Some (r !! comment_key) (comment_above lines i).
Proof.
  unfold fill_span. intros ->%fill_attrs_comment. apply set_comment_lookup.
Qed.

Lemma fill_fields_comment lines indexes :
  ∀ (dico d : gmap string record),
    fill_fields lines indexes dico = Ok d →
    ∀ f, d !! f ≫= (.!! comment_key)
         = match dico !! f with
           | Some r0 => last_comment lines indexes f (r0 !! comment_key)
           | None => None
           end.
Proof.
  unfold last_comment.
  induction indexes as [|[field istart] rest IH]; intros dico d Hrun f;
    simpl in Hrun.
  - injection Hrun as <-. simpl. by destruct (dico !! f).
  - destruct (dico !! field) as [r0|] eqn:Hr0; [|done].
    unfold mbind, result_bind in Hrun.
    destruct (fill_span lines istart _ r0) as [r1|] eqn:Hspan;
      simpl in Hrun; [|done].
    rewrite (IH _ _ Hrun f). simpl.
    destruct (decide (field = f)) as [->|Hne].
    + rewrite lookup_insert_eq, Hr0. simpl.
      by rewrite (fill_span_comment _ _ _ _ _ Hspan).
    + by rewrite lookup_insert_ne.
Qed.

Lemma last_comment_none lines indexes f acc :
  f ∉ indexes.*1 → last_comment lines indexes f acc = acc.
Proof.
  unfold last_comment. revert acc.
  induction indexes as [|[g i] rest IH]; intros acc Hnin; [done|].
  simpl in *. apply not_elem_of_cons in Hnin as [Hne Hnin].
  rewrite decide_False by done. by apply IH.
Qed.

End Comments.

(** X16: the comment of a field in the fragment that the parser returns is
    the text of the line just above the last of its declarations that has
    a comment line above it (the line without its first character, stripped
    of blanks and then of double quotes), and the record has no comment
    when none of its declarations has one. A comment line anywhere else is
    not recorded, and no attribute line writes the comment. *)
Theorem X16_comment_of_a_field (text : string) (d : gmap string record)
    (f : string) (r : record) :
  parse text = Ok d → d !! f = Some r →
  r !! comment_key
  = last_comment (unfold_lines text) (find_fields (unfold_lines text)).1 f None.
Proof.
  unfold parse, parse_lines. intros Hparse Hr.
  pose proof (find_fields_dico (unfold_lines text) f) as Hdico.
  destruct (find_fields (unfold_lines text)) as [indexes dico].
  pose proof (fill_fields_comment _ _ _ _ Hparse f) as Hc.
  rewrite Hr in Hc. simpl in Hc, Hdico. rewrite Hc, Hdico.
  destruct (decide (f ∈ indexes.*1)) as [Hin|Hnin]; [done|].
  by rewrite last_comment_none.
Qed.

Lemma X16_witness :
  last_comment
    (unfold_lines ("# wind" +:+ nls +:+ "'u' = {" +:+ nls +:+
                   "# not recorded" +:+ nls +:+ "a = 1 ;" +:+ nls +:+ "}"))
    (find_fields
       (unfold_lines ("# wind" +:+ nls +:+ "'u' = {" +:+ nls +:+
                      "# not recorded" +:+ nls +:+ "a = 1 ;" +:+ nls +:+ "}"))).1
    "u" None
  = Some (VStr "wind").
Proof.
  rewrite <- (X16_comment_of_a_field
                ("# wind" +:+ nls +:+ "'u' = {" +:+ nls +:+
                 "# not recorded" +:+ nls +:+ "a = 1 ;" +:+ nls +:+ "}")
                {[ "u" := {[ comment_key := VStr "wind";
                             Some "a" := VInt 1 ]} ]}
                "u" {[ comment_key := VStr "wind"; Some "a" := VInt 1 ]}).
  - vm_compute. reflexivity.
  - vm_compute. reflexivity.
  - vm_compute. reflexivity.
Defined.

(* ===================================================================== *)
(** * What the parser returns, and when it raises *)
(* ===================================================================== *)

Section ParserOutcome.

Implicit Types (lines : list string) (r : record) (f : string)
  (dico d : gmap string record).

Lemma py_int_raises s e : py_int s = Raise e → e = ValueError.
Proof.
  unfold py_int. destruct (take_sign s) as [neg body].
  destruct (digits body) as [[v n]|]; [destruct (0 <? n)|]; congruence.
Qed.

Lemma py_float_raises s e : py_float s = Raise e → e = ValueError.
Proof.
  unfold py_float. destruct (take_sign s) as [neg s1].
  destruct (span_while is_digit s1) as [ip s2].
  destruct (match s2 with String "." r => _ | _ => _ end) as [fp s3].
  destruct (digits (ip +:+ fp)) as [[m n]|]; [|congruence].
  destruct (digits fp) as [[m' nf]|]; [|congruence].
  destruct (exponent s3) as [ex|]; [|congruence].
  destruct (0 <? n); congruence.
Qed.

Lemma fill_attrs_raises ls :
  ∀ r e, fill_attrs ls r = Raise e → e = ValueError.
Proof.
  induction ls as [|line rest IH]; intros r e Hrun; simpl in Hrun; [done|].
  destruct (rmatch re_keyvalue line) as [m|]; [|by eapply IH].
  destruct (truthy (group m "int")).
  { unfold mbind, result_bind in Hrun.
    destruct (py_int _) as [z|e'] eqn:Hint; simpl in Hrun; [by eapply IH|].
    injection Hrun as <-. by eapply py_int_raises. }
  destruct (truthy (group m "real")); [|by eapply IH].
  unfold mbind, result_bind in Hrun.
  destruct (py_float _) as [x|e'] eqn:Hfl; simpl in Hrun; [by eapply IH|].
  injection Hrun as <-. by eapply py_float_raises.
Qed.

(** The second loop finds the record of every declared name: its only
    failures are those of the conversions. *)
Lemma fill_fields_raises lines indexes :
  ∀ dico e,
    (∀ f, f ∈ indexes.*1 → is_Some (dico !! f)) →
    fill_fields lines indexes dico = Raise e → e = ValueError.
Proof.
  induction indexes as [|[field istart] rest IH]; intros dico e Hdom Hrun;
    simpl in Hrun; [done|].
  destruct (Hdom field) as [r0 Hr0]; [simpl; left|]. rewrite Hr0 in Hrun.
  unfold mbind, result_bind in Hrun.
  destruct (fill_span lines istart _ r0) as [r1|e'] eqn:Hspan; simpl in Hrun.
  - eapply IH; [|exact Hrun]. intros f Hf.
    destruct (decide (field = f)) as [->|Hne].
    + rewrite lookup_insert_eq. eauto.
    + rewrite lookup_insert_ne by done. apply Hdom. simpl. by right.
  - injection Hrun as <-. unfold fill_span in Hspan.
    by eapply fill_attrs_raises.
Qed.

Lemma fill_fields_ok_spans lines indexes :
  ∀ dico d,
    fill_fields lines indexes dico = Ok d → spans_ok lines indexes = true.
Proof.
  unfold spans_ok.
  induction indexes as [|[field istart] rest IH]; intros dico d Hrun;
    simpl in *; [done|].
  destruct (dico !! field) as [r0|]; [|done].
  unfold mbind, result_bind in Hrun.
  destruct (fill_span lines istart _ r0) as [r1|] eqn:Hspan;
    simpl in Hrun; [|done].
  apply andb_true_intro. split; [|by eapply IH].
  unfold span_ok. rewrite fill_span_union in Hspan.
  by destruct (fill_span lines istart _ ∅).
Qed.

Lemma fill_fields_dom lines indexes :
  ∀ dico d,
    fill_fields lines indexes dico = Ok d →
    ∀ f, is_Some (d !! f) ↔ is_Some (dico !! f).
Proof.
  induction indexes as [|[field istart] rest IH]; intros dico d Hrun f;
    simpl in Hrun.
  - by injection Hrun as <-.
  - destruct (dico !! field) as [r0|] eqn:Hr0; [|done].
    unfold mbind, result_bind in Hrun.
    destruct (fill_span lines istart _ r0) as [r1|]; simpl in Hrun; [|done].
    rewrite (IH _ _ Hrun f).
    destruct (decide (field = f)) as [->|Hne].
    + rewrite lookup_insert_eq, Hr0. split; eauto.
    + by rewrite lookup_insert_ne.
Qed.

(** The declarations that the first loop collects are the header lines. *)
Lemma find_step_indexes acc (il : nat * string) f (i : nat) :
  (f, i) ∈ (find_step acc il).1 ↔
    (f, i) ∈ acc.1
    ∨ (il.1 = i ∧ ∃ m, rmatch re_name il.2 = Some m ∧ group m "name" = Some f).
Proof.
  destruct acc as [idx dico], il as [j line]. simpl.
  destruct (rmatch re_name line) as [m|] eqn:Hm.
  - destruct (group m "name") as [field|] eqn:Hg; simpl.
    + rewrite elem_of_app, list_elem_of_singleton. split.
      * intros [?|[= -> ->]]; [by left|right]. eauto.
      * intros [?|[-> (m' & [= <-] & Hg')]]; [by left|right]. congruence.
    + split; [by left|].
      intros [?|[_ (m' & [= <-] & ?)]]; [done|congruence].
  - split; [by left|]. by intros [?|[_ (m' & ? & _)]].
Qed.

Lemma find_fields_indexes lines f (i : nat) :
  (f, i) ∈ (find_fields lines).1 ↔
    ∃ line m, lines !! i = Some line ∧ rmatch re_name line = Some m
              ∧ group m "name" = Some f.
Proof.
  unfold find_fields.
  assert (∀ (ils : list (nat * string)) acc,
            (f, i) ∈ (foldl find_step acc ils).1 ↔
              (f, i) ∈ acc.1
              ∨ ∃ line m, (i, line) ∈ ils ∧ rmatch re_name line = Some m
                          ∧ group m "name" = Some f) as H.
  { induction ils as [|[j line] ils IH]; intros acc; simpl.
    - split; [by left|]. intros [?|(line & m & Hin & _)]; [done|].
      by apply elem_of_nil in Hin.
    - rewrite IH, find_step_indexes. simpl. split.
      + intros [[?|[-> (m & ? & ?)]]|(l & m & ? & ? & ?)].
        * by left.
        * right. exists line, m. split; [left|done].
        * right. exists l, m. split; [by right|done].
      + intros [?|(l & m & Hin & ? & ?)]; [by left; left|].
        apply elem_of_cons in Hin as [[= -> ->]|Hin].
        * left. right. eauto.
        * right. eauto. }
  rewrite H. simpl. split.
  - intros [Hin|(line & m & Hin & ? & ?)]; [by apply elem_of_nil in Hin|].
    apply elem_of_lookup_imap in Hin as (j & y & [= -> ->] & Hy). eauto.
  - intros (line & m & Hl & ? & ?). right. exists line, m.
    split; [|done]. apply elem_of_lookup_imap. eauto.
Qed.

End ParserOutcome.

(** X17: the parser either returns, when the numeric conversions of every
    span succeed, or raises ValueError, when one of them fails; it raises
    nothing else on the text of a file. In particular the record of a
    declared name is always found by the second loop. *)
Theorem X17_parse_returns_or_ValueError (text : string) :
  match parse text with
  | Ok d =>
      spans_ok (unfold_lines text) (find_fields (unfold_lines text)).1 = true
  | Raise e =>
      e = ValueError
      ∧ spans_ok (unfold_lines text) (find_fields (unfold_lines text)).1
        = false
  end.
Proof.
  unfold parse, parse_lines.
  pose proof (find_fields_dico (unfold_lines text)) as Hdico.
  destruct (find_fields (unfold_lines text)) as [indexes dico]. simpl in *.
  assert (∀ f, f ∈ indexes.*1 → is_Some (dico !! f)) as Hdom.
  { intros f Hf. rewrite Hdico, decide_True by done. eauto. }
  destruct (fill_fields (unfold_lines text) indexes dico) as [d|e] eqn:Hrun.
  - by eapply fill_fields_ok_spans.
  - split; [by eapply fill_fields_raises|].
    destruct (spans_ok (unfold_lines text) indexes) eqn:Hok; [|done].
    destruct (fill_fields_spec _ _ dico Hdom Hok) as (d & Hd & _).
    congruence.
Qed.

(** X18: the fragment that the parser returns has a record for a name
    exactly when some line of the unfolded file is a declaration of that
    name. *)
Theorem X18_fields_are_the_declared_names (text : string)
    (d : gmap string record) (f : string) :
  parse text = Ok d →
  (is_Some (d !! f) ↔
     ∃ (i : nat) line m,
       unfold_lines text !! i = Some line
       ∧ rmatch re_name line = Some m ∧ group m "name" = Some f).
Proof.
  unfold parse, parse_lines. intros Hparse.
  pose proof (find_fields_dico (unfold_lines text) f) as Hdico.
  pose proof (find_fields_indexes (unfold_lines text) f) as Hidx.
  destruct (find_fields (unfold_lines text)) as [indexes dico]. simpl in *.
  rewrite (fill_fields_dom _ _ _ _ Hparse f), Hdico.
  destruct (decide (f ∈ indexes.*1)) as [Hin|Hnin].
  - split; [|eauto]. intros _.
    apply list_elem_of_fmap in Hin as ([g i] & -> & Hin).
    exists i. by apply Hidx.
  - split; [by intros [? ?]|]. intros (i & Hi%Hidx). destruct Hnin.
    apply list_elem_of_fmap. by exists (f, i).
Qed.

Lemma X18_witness :
  ∃ (i : nat) line m,
    unfold_lines Examples.text_commented !! i = Some line
    ∧ rmatch re_name line = Some m ∧ group m "name" = Some "u".
Proof.
  apply (X18_fields_are_the_declared_names Examples.text_commented
           {[ "t" := {[ comment_key := VStr "air temperature";
                        Some "discipline" := VInt 0 ]};
              "u" := {[ Some "discipline" := VInt 2 ]} ]} "u").
  - vm_compute. reflexivity.
  - vm_compute. eauto.
Defined.
